(** * Olive render backend: queue, dispatch and graph-copy synchronisation

    A shallow embedding of [app/render/backend/renderbackend.cpp].  The
    backend object becomes a record that is threaded through every member
    function; the node graph it talks to (class [Node], [NodeInput], ...) is
    not part of that file and is kept behind the interface [NodeGraph]. *)

From Stdlib Require Import ZArith QArith Qround Qabs Lqa Lia.
From stdpp Require Import gmap strings list fin_maps.

Set Default Proof Using "Type".
Local Open Scope nat_scope.

(** ** Faults

    [Q_ASSERT] aborts, [QList::at] checks its index, dereferencing a null
    pointer crashes, and the recursive copy is not guaranteed to terminate on
    a cyclic graph: the embedding makes these outcomes explicit. *)

Inductive Fault := AssertFailed | IndexOutOfRange | NullDeref | OutOfFuel.

Definition Outcome (A : Type) : Type := Fault + A.

Definition Done {A} (a : A) : Outcome A := inr a.
Definition Abort {A} (f : Fault) : Outcome A := inl f.

Definition obind {A B} (m : Outcome A) (k : A → Outcome B) : Outcome B :=
  match m with
  | inl f => inl f
  | inr a => k a
  end.

Notation "'let*' x := m 'in' k" := (obind m (fun x => k))
  (at level 10, x pattern, m at level 200, k at level 200).

(** ** Pointers into the node graph *)

Definition Node := nat.

Record NodeInput := mkInput { parentNode : Node; id : string }.
Record NodeOutput := mkOutput { out_parentNode : Node; out_id : string }.
Record NodeEdge := mkEdge { edge_output : NodeOutput; edge_input : NodeInput }.

Global Instance NodeInput_eq_dec : EqDecision NodeInput.
Proof. solve_decision. Defined.
Global Instance NodeOutput_eq_dec : EqDecision NodeOutput.
Proof. solve_decision. Defined.
Global Instance NodeEdge_eq_dec : EqDecision NodeEdge.
Proof. solve_decision. Defined.

(** [QList::contains] *)
Definition contains {A} `{EqDecision A} (l : list A) (x : A) : bool :=
  bool_decide (x ∈ l).

(** ** The node-graph interface

    Everything the backend calls on [Node], [NodeInput], [NodeInputArray] and
    [NodeParam].  The heap of node objects is a value of type [World]; the
    live graph and the backend's copies live in the same heap, as they do in
    the program. *)

Class NodeGraph (World : Type) := {
  (** [n->OutputsTo(input, true, true)] *)
  OutputsTo : World → Node → NodeInput → bool;
  IsArray : World → NodeInput → bool;
  sub_params : World → NodeInput → list NodeInput;
  (** [get_connected_output()], null when [!is_connected()] *)
  connected_output : World → NodeInput → option NodeOutput;
  edges : World → NodeInput → list NodeEdge;
  DisconnectEdge : World → NodeEdge → World;
  ConnectEdge : World → NodeOutput → NodeInput → World;
  (** [NodeInput::CopyValues(src, dst, false, false)] *)
  CopyValues : World → NodeInput → NodeInput → World;
  (** [Node::CopyInputs(src, dst, false)] *)
  CopyInputs : World → Node → Node → World;
  (** [n->copy()] allocates a node *)
  copy : World → Node → World * Node;
  IsTrack : World → Node → bool;
  (** [dst->set_track_type(src->track_type())] *)
  copy_track_type : World → Node → Node → World;
  GetInputsIncludingArrays : World → Node → list NodeInput;
  GetExclusiveDependencies : World → NodeInput → list Node;
  texture_input : Node → NodeInput;
  samples_input : Node → NodeInput
}.

Definition is_connected `{NodeGraph World} (w : World) (i : NodeInput) : bool :=
  bool_decide (is_Some (connected_output w i)).

Definition GetInputWithID (n : Node) (i : string) : NodeInput := mkInput n i.
Definition GetOutputWithID (n : Node) (i : string) : NodeOutput := mkOutput n i.

(** ** Tickets, workers, jobs *)

Inductive TicketType := kTypeHash | kTypeVideo | kTypeAudio.

Global Instance TicketType_eq_dec : EqDecision TicketType.
Proof. solve_decision. Defined.

(** The [QVariant] a ticket carries. *)
Inductive TicketTime :=
| TimeList (times : list Q)
| TimePoint (time : Q)
| TimeSpan (r_in r_out : Q).

Record RenderTicket := mkTicket {
  GetType : TicketType;
  GetTime : TicketTime;
  IsCancelled : bool
}.

(** A [RenderTicketPtr] is an address in the ticket heap: the caller and the
    queue share the ticket object. *)
Definition RenderTicketPtr := nat.

(** Modelled from the spec: [RenderTicket::Cancel] is declared outside this
    file; it marks the ticket canceled, and doing so twice changes nothing. *)
Definition Cancel (t : RenderTicket) : RenderTicket :=
  {| GetType := GetType t; GetTime := GetTime t; IsCancelled := true |}.

Record WorkerData := mkWorker { worker : nat; busy : bool }.

(** One call of [QtConcurrent::run(&pool_, worker, method, ticket,
    copied_viewer_node_, payload)]. *)
Record Job := mkJob {
  job_worker : nat;
  job_method : TicketType;
  job_ticket : RenderTicketPtr;
  job_root : option Node;
  job_payload : TicketTime
}.

(** ** The backend object *)

Section Backend.
Context {World : Type} `{NodeGraph World}.

Record RenderBackend := mkBackend {
  (** heap of node objects (live graph and copies) *)
  graph : World;
  (** heap of ticket objects *)
  ticket_heap : gmap RenderTicketPtr RenderTicket;
  viewer_node_ : option Node;
  update_with_graph_ : bool;
  (** [video_params_.is_valid()], [audio_params_.is_valid()] *)
  video_params_valid : bool;
  audio_params_valid : bool;
  render_queue_ : list RenderTicketPtr;
  copy_map_ : gmap Node Node;
  copied_viewer_node_ : option Node;
  graph_update_queue_ : list NodeInput;
  workers_ : list WorkerData;
  (** runnables handed to [pool_] and not yet finished *)
  pool_ : list Job;
  maxThreadCount : nat;
  (** nodes on which [deleteLater()] was called *)
  deleted_later : list Node;
  (** viewers whose [GraphChangedFrom] is connected to [NodeGraphChanged] *)
  graph_changed_from : list Node;
  (** pending queued invocations of [RunNextJob] *)
  queued_RunNextJob : nat;
  (** allocation counter of [CreateNewWorker] *)
  next_worker : nat
}.

Definition set_graph (w : World) (s : RenderBackend) : RenderBackend :=
  mkBackend w (ticket_heap s) (viewer_node_ s) (update_with_graph_ s)
    (video_params_valid s) (audio_params_valid s) (render_queue_ s)
    (copy_map_ s) (copied_viewer_node_ s) (graph_update_queue_ s)
    (workers_ s) (pool_ s) (maxThreadCount s) (deleted_later s)
    (graph_changed_from s) (queued_RunNextJob s) (next_worker s).

Definition set_ticket_heap h (s : RenderBackend) : RenderBackend :=
  mkBackend (graph s) h (viewer_node_ s) (update_with_graph_ s)
    (video_params_valid s) (audio_params_valid s) (render_queue_ s)
    (copy_map_ s) (copied_viewer_node_ s) (graph_update_queue_ s)
    (workers_ s) (pool_ s) (maxThreadCount s) (deleted_later s)
    (graph_changed_from s) (queued_RunNextJob s) (next_worker s).

Definition set_viewer_node v (s : RenderBackend) : RenderBackend :=
  mkBackend (graph s) (ticket_heap s) v (update_with_graph_ s)
    (video_params_valid s) (audio_params_valid s) (render_queue_ s)
    (copy_map_ s) (copied_viewer_node_ s) (graph_update_queue_ s)
    (workers_ s) (pool_ s) (maxThreadCount s) (deleted_later s)
    (graph_changed_from s) (queued_RunNextJob s) (next_worker s).

Definition set_render_queue q (s : RenderBackend) : RenderBackend :=
  mkBackend (graph s) (ticket_heap s) (viewer_node_ s) (update_with_graph_ s)
    (video_params_valid s) (audio_params_valid s) q
    (copy_map_ s) (copied_viewer_node_ s) (graph_update_queue_ s)
    (workers_ s) (pool_ s) (maxThreadCount s) (deleted_later s)
    (graph_changed_from s) (queued_RunNextJob s) (next_worker s).

Definition set_copy_map m (s : RenderBackend) : RenderBackend :=
  mkBackend (graph s) (ticket_heap s) (viewer_node_ s) (update_with_graph_ s)
    (video_params_valid s) (audio_params_valid s) (render_queue_ s)
    m (copied_viewer_node_ s) (graph_update_queue_ s)
    (workers_ s) (pool_ s) (maxThreadCount s) (deleted_later s)
    (graph_changed_from s) (queued_RunNextJob s) (next_worker s).

Definition set_copied_viewer_node c (s : RenderBackend) : RenderBackend :=
  mkBackend (graph s) (ticket_heap s) (viewer_node_ s) (update_with_graph_ s)
    (video_params_valid s) (audio_params_valid s) (render_queue_ s)
    (copy_map_ s) c (graph_update_queue_ s)
    (workers_ s) (pool_ s) (maxThreadCount s) (deleted_later s)
    (graph_changed_from s) (queued_RunNextJob s) (next_worker s).

Definition set_graph_update_queue q (s : RenderBackend) : RenderBackend :=
  mkBackend (graph s) (ticket_heap s) (viewer_node_ s) (update_with_graph_ s)
    (video_params_valid s) (audio_params_valid s) (render_queue_ s)
    (copy_map_ s) (copied_viewer_node_ s) q
    (workers_ s) (pool_ s) (maxThreadCount s) (deleted_later s)
    (graph_changed_from s) (queued_RunNextJob s) (next_worker s).

Definition set_workers ws (s : RenderBackend) : RenderBackend :=
  mkBackend (graph s) (ticket_heap s) (viewer_node_ s) (update_with_graph_ s)
    (video_params_valid s) (audio_params_valid s) (render_queue_ s)
    (copy_map_ s) (copied_viewer_node_ s) (graph_update_queue_ s)
    ws (pool_ s) (maxThreadCount s) (deleted_later s)
    (graph_changed_from s) (queued_RunNextJob s) (next_worker s).

Definition set_pool p (s : RenderBackend) : RenderBackend :=
  mkBackend (graph s) (ticket_heap s) (viewer_node_ s) (update_with_graph_ s)
    (video_params_valid s) (audio_params_valid s) (render_queue_ s)
    (copy_map_ s) (copied_viewer_node_ s) (graph_update_queue_ s)
    (workers_ s) p (maxThreadCount s) (deleted_later s)
    (graph_changed_from s) (queued_RunNextJob s) (next_worker s).

Definition set_deleted_later d (s : RenderBackend) : RenderBackend :=
  mkBackend (graph s) (ticket_heap s) (viewer_node_ s) (update_with_graph_ s)
    (video_params_valid s) (audio_params_valid s) (render_queue_ s)
    (copy_map_ s) (copied_viewer_node_ s) (graph_update_queue_ s)
    (workers_ s) (pool_ s) (maxThreadCount s) d
    (graph_changed_from s) (queued_RunNextJob s) (next_worker s).

Definition set_graph_changed_from c (s : RenderBackend) : RenderBackend :=
  mkBackend (graph s) (ticket_heap s) (viewer_node_ s) (update_with_graph_ s)
    (video_params_valid s) (audio_params_valid s) (render_queue_ s)
    (copy_map_ s) (copied_viewer_node_ s) (graph_update_queue_ s)
    (workers_ s) (pool_ s) (maxThreadCount s) (deleted_later s)
    c (queued_RunNextJob s) (next_worker s).

Definition set_queued_RunNextJob n (s : RenderBackend) : RenderBackend :=
  mkBackend (graph s) (ticket_heap s) (viewer_node_ s) (update_with_graph_ s)
    (video_params_valid s) (audio_params_valid s) (render_queue_ s)
    (copy_map_ s) (copied_viewer_node_ s) (graph_update_queue_ s)
    (workers_ s) (pool_ s) (maxThreadCount s) (deleted_later s)
    (graph_changed_from s) n (next_worker s).

Definition set_next_worker n (s : RenderBackend) : RenderBackend :=
  mkBackend (graph s) (ticket_heap s) (viewer_node_ s) (update_with_graph_ s)
    (video_params_valid s) (audio_params_valid s) (render_queue_ s)
    (copy_map_ s) (copied_viewer_node_ s) (graph_update_queue_ s)
    (workers_ s) (pool_ s) (maxThreadCount s) (deleted_later s)
    (graph_changed_from s) (queued_RunNextJob s) n.

(** ** [NodeGraphChanged]: enqueueing a changed input *)

(** The [for] loop over [graph_update_queue_].  The queue is edited in place
    ([removeAt(i); i--]), so an early [return] keeps the removals made so
    far.  The result is the queue after the loop and whether the loop ran to
    its end ([true]) or returned early ([false]). *)
Fixpoint NodeGraphChanged_loop (w : World) (source : NodeInput)
    (queue : list NodeInput) : list NodeInput * bool :=
  match queue with
  | [] => ([], true)
  | queued_input :: rest =>
      if bool_decide (source = queued_input) then (queue, false)
      else if OutputsTo w (parentNode source) queued_input then (queue, false)
      else if IsArray w queued_input
              && contains (sub_params w queued_input) source then (queue, false)
      else if OutputsTo w (parentNode queued_input) source
              || (IsArray w source
                  && contains (sub_params w source) queued_input)
      then NodeGraphChanged_loop w source rest
      else let '(rest', finished) := NodeGraphChanged_loop w source rest in
           (queued_input :: rest', finished)
  end.

Definition NodeGraphChanged (source : NodeInput) (s : RenderBackend)
    : Outcome RenderBackend :=
  match copy_map_ s !! parentNode source with
  | None =>
      if bool_decide (graph_update_queue_ s = []) then Abort AssertFailed
      else Done s
  | Some our_copy_node =>
      let '(queue, finished) :=
        NodeGraphChanged_loop (graph s) source (graph_update_queue_ s) in
      if finished then Done (set_graph_update_queue (queue ++ [source]) s)
      else Done (set_graph_update_queue queue s)
  end.

(** ** Tickets: [ClearVideoQueue] and the three submissions *)

(** [foreach (RenderTicketPtr t, render_queue_) t->Cancel();] *)
Definition cancel_all (queue : list RenderTicketPtr)
    (heap : gmap RenderTicketPtr RenderTicket) : gmap RenderTicketPtr RenderTicket :=
  foldl (λ h t, alter Cancel t h) heap queue.

Definition ClearVideoQueue (s : RenderBackend) : RenderBackend :=
  set_render_queue []
    (set_ticket_heap (cancel_all (render_queue_ s) (ticket_heap s)) s).

(** [std::make_shared<RenderTicket>(type, time)] followed by
    [render_queue_.push_back(ticket)] and the queued invocation of
    [RunNextJob]; the result is the returned pointer ([None] for [nullptr]). *)
Definition submit (type : TicketType) (time : TicketTime) (s : RenderBackend)
    : option RenderTicketPtr * RenderBackend :=
  match viewer_node_ s with
  | None => (None, s)
  | Some _ =>
      let ticket := fresh (dom (ticket_heap s)) in
      let s1 := set_ticket_heap
                  (<[ticket := mkTicket type time false]> (ticket_heap s)) s in
      let s2 := set_render_queue (render_queue_ s1 ++ [ticket]) s1 in
      (Some ticket, set_queued_RunNextJob (S (queued_RunNextJob s2)) s2)
  end.

Definition Hash (times : list Q) := submit kTypeHash (TimeList times).
Definition RenderFrame (time : Q) := submit kTypeVideo (TimePoint time).
Definition RenderAudio (r_in r_out : Q) := submit kTypeAudio (TimeSpan r_in r_out).

Definition SetVideoParams (valid : bool) (s : RenderBackend) : RenderBackend :=
  mkBackend (graph s) (ticket_heap s) (viewer_node_ s) (update_with_graph_ s)
    valid (audio_params_valid s) (render_queue_ s)
    (copy_map_ s) (copied_viewer_node_ s) (graph_update_queue_ s)
    (workers_ s) (pool_ s) (maxThreadCount s) (deleted_later s)
    (graph_changed_from s) (queued_RunNextJob s) (next_worker s).

Definition SetAudioParams (valid : bool) (s : RenderBackend) : RenderBackend :=
  mkBackend (graph s) (ticket_heap s) (viewer_node_ s) (update_with_graph_ s)
    (video_params_valid s) valid (render_queue_ s)
    (copy_map_ s) (copied_viewer_node_ s) (graph_update_queue_ s)
    (workers_ s) (pool_ s) (maxThreadCount s) (deleted_later s)
    (graph_changed_from s) (queued_RunNextJob s) (next_worker s).

(** ** Copying the graph *)

(** [CopyNodeMakeConnection], with the recursive call to
    [CopyNodeConnections] passed in. *)
Definition CopyNodeMakeConnection_with
    (rec : Node → RenderBackend → Outcome (RenderBackend * Node))
    (src_input dst_input : NodeInput) (s : RenderBackend)
    : Outcome RenderBackend :=
  match connected_output (graph s) src_input with
  | None => Done s
  | Some out =>
      let* (s1, dst_node) := rec (out_parentNode out) s in
      match connected_output (graph s1) src_input with
      | None => Abort NullDeref
      | Some out1 =>
          let corresponding_output := GetOutputWithID dst_node (out_id out1) in
          Done (set_graph (ConnectEdge (graph s1) corresponding_output dst_input) s1)
      end
  end.

(** The [for] loop of [CopyNodeConnections]; [dst_node_inputs.at(i)] asserts
    that [i] is in range. *)
Fixpoint copy_connections_loop
    (rec : Node → RenderBackend → Outcome (RenderBackend * Node))
    (src_node_inputs dst_node_inputs : list NodeInput) (s : RenderBackend)
    : Outcome RenderBackend :=
  match src_node_inputs with
  | [] => Done s
  | src_input :: srcs =>
      match dst_node_inputs with
      | [] => Abort IndexOutOfRange
      | dst_input :: dsts =>
          let* s1 := CopyNodeMakeConnection_with rec src_input dst_input s in
          copy_connections_loop rec srcs dsts s1
      end
  end.

Fixpoint CopyNodeConnections (fuel : nat) (src_node : Node) (s : RenderBackend)
    : Outcome (RenderBackend * Node) :=
  match fuel with
  | O => Abort OutOfFuel
  | S fuel' =>
      let '(s1, dst_node) :=
        match copy_map_ s !! src_node with
        | Some dst_node => (s, dst_node)
        | None =>
            let '(w, dst_node) := copy (graph s) src_node in
            let w1 := if IsTrack w dst_node
                      then copy_track_type w dst_node src_node else w in
            (set_copy_map (<[src_node := dst_node]> (copy_map_ s)) (set_graph w1 s),
             dst_node)
        end in
      let s2 := set_graph (CopyInputs (graph s1) src_node dst_node) s1 in
      let src_node_inputs := GetInputsIncludingArrays (graph s2) src_node in
      let dst_node_inputs := GetInputsIncludingArrays (graph s2) dst_node in
      let* s3 := copy_connections_loop (CopyNodeConnections fuel')
                 src_node_inputs dst_node_inputs s2 in
      Done (s3, dst_node)
  end.

Definition CopyNodeMakeConnection (fuel : nat) :=
  CopyNodeMakeConnection_with (CopyNodeConnections fuel).

(** [copy_map_.key(i)]: a key mapped to [i], null when there is none. *)
Definition copy_map_key (m : gmap Node Node) (i : Node) : option Node :=
  (λ r, fst (snd r)) <$> list_find (λ kv, snd kv = i) (map_to_list m).

(** [foreach (Node* i, old_deps) copy_map_.take(copy_map_.key(i))->deleteLater();]
    [take] on a missing key returns null, on which [deleteLater] crashes. *)
Fixpoint remove_old_deps (old_deps : list Node) (s : RenderBackend)
    : Outcome RenderBackend :=
  match old_deps with
  | [] => Done s
  | i :: rest =>
      match copy_map_key (copy_map_ s) i with
      | None => Abort NullDeref
      | Some k =>
          remove_old_deps rest
            (set_deleted_later (deleted_later s ++ [i])
               (set_copy_map (delete k (copy_map_ s)) s))
      end
  end.

(** [while (!our_copy->edges().isEmpty()) DisconnectEdge(our_copy->edges().first());] *)
Fixpoint disconnect_edges (fuel : nat) (our_copy : NodeInput) (w : World)
    : Outcome World :=
  match edges w our_copy with
  | [] => Done w
  | e :: _ =>
      match fuel with
      | O => Abort OutOfFuel
      | S fuel' => disconnect_edges fuel' our_copy (DisconnectEdge w e)
      end
  end.

Fixpoint foreach_input (f : NodeInput → RenderBackend → Outcome RenderBackend)
    (l : list NodeInput) (s : RenderBackend) : Outcome RenderBackend :=
  match l with
  | [] => Done s
  | i :: rest => let* s1 := f i s in foreach_input f rest s1
  end.

Fixpoint CopyNodeInputValue (fuel : nat) (input : NodeInput) (s : RenderBackend)
    : Outcome RenderBackend :=
  match fuel with
  | O => Abort OutOfFuel
  | S fuel' =>
      match copy_map_ s !! parentNode input with
      | None => Abort AssertFailed
      | Some our_copy_node =>
          let our_copy := GetInputWithID our_copy_node (id input) in
          let s1 := set_graph (CopyValues (graph s) input our_copy) s in
          let* s2 :=
            (if is_connected (graph s1) input || is_connected (graph s1) our_copy
             then
               let old_deps := GetExclusiveDependencies (graph s1) our_copy in
               let* s1a := remove_old_deps old_deps s1 in
               let* w := disconnect_edges fuel' our_copy (graph s1a) in
               CopyNodeMakeConnection fuel' input our_copy (set_graph w s1a)
             else Done s1) in
          if IsArray (graph s2) input
          then foreach_input (CopyNodeInputValue fuel')
                 (sub_params (graph s2) input) s2
          else Done s2
      end
  end.

(** [while (!graph_update_queue_.isEmpty()) CopyNodeInputValue(graph_update_queue_.takeFirst());] *)
Fixpoint ProcessUpdateQueue_loop (fuel : nat) (queue : list NodeInput)
    (s : RenderBackend) : Outcome RenderBackend :=
  match queue with
  | [] => Done (set_graph_update_queue [] s)
  | i :: rest =>
      let* s1 := CopyNodeInputValue fuel i (set_graph_update_queue rest s) in
      ProcessUpdateQueue_loop fuel rest s1
  end.

Definition ProcessUpdateQueue (fuel : nat) (s : RenderBackend)
    : Outcome RenderBackend :=
  ProcessUpdateQueue_loop fuel (graph_update_queue_ s) s.

(** ** [RunNextJob]: the dispatch loop *)

(** [foreach (const WorkerData& data, workers_) if (data.busy) ...] *)
Definition all_workers_available (ws : list WorkerData) : bool :=
  forallb (λ data, negb (busy data)) ws.

(** [workers_.resize(pool_.maxThreadCount())] and the loop that fills every
    slot with [{CreateNewWorker(), false}]. *)
Definition allocate_workers (s : RenderBackend) : RenderBackend :=
  let n := maxThreadCount s in
  set_next_worker (next_worker s + n)
    (set_workers (map (λ i, mkWorker (next_worker s + i) false) (seq 0 n)) s).

(** The [switch] on the ticket type: the runnable handed to the pool. *)
Definition make_job (w : nat) (ticket : RenderTicketPtr) (t : RenderTicket)
    (root : option Node) : Job :=
  match GetType t with
  | kTypeHash => mkJob w kTypeHash ticket root (GetTime t)
  | kTypeVideo => mkJob w kTypeVideo ticket root (GetTime t)
  | kTypeAudio => mkJob w kTypeAudio ticket root (GetTime t)
  end.

(** The loop "start popping jobs off the queue", over the worker slots that
    are still to be visited.  Returns the slots after the loop, the
    remaining queue and the jobs started, in order.  [render_queue_.front()]
    on an empty queue and a ticket pointer outside the heap are crashes.
    The setters called on the worker before the job is started (parameters,
    download matrix, render mode, preview generation, copy map) change the
    worker object only, which is not part of the backend's state. *)
Fixpoint dispatch_loop (heap : gmap RenderTicketPtr RenderTicket)
    (root : option Node) (ws : list WorkerData) (queue : list RenderTicketPtr)
    : Outcome (list WorkerData * list RenderTicketPtr * list Job) :=
  match ws with
  | [] => Done ([], queue, [])
  | data :: ws' =>
      if busy data then
        let* (ws1, queue1, jobs) := dispatch_loop heap root ws' queue in
        Done (data :: ws1, queue1, jobs)
      else
        match queue with
        | [] => Abort NullDeref
        | ticket :: queue' =>
            match heap !! ticket with
            | None => Abort NullDeref
            | Some t =>
                let job := make_job (worker data) ticket t root in
                let data' := mkWorker (worker data) true in
                if bool_decide (queue' = []) then Done (data' :: ws', queue', [job])
                else
                  let* (ws1, queue1, jobs) := dispatch_loop heap root ws' queue' in
                  Done (data' :: ws1, queue1, job :: jobs)
            end
        end
  end.

Definition RunNextJob (fuel : nat) (s : RenderBackend) : Outcome RenderBackend :=
  if bool_decide (render_queue_ s = []) then Done s
  else if negb (video_params_valid s) || negb (audio_params_valid s) then Done s
  else
    let pending :=
      update_with_graph_ s && negb (bool_decide (graph_update_queue_ s = [])) in
    if pending && negb (all_workers_available (workers_ s)) then Done s
    else
      let* s1 := (if pending then ProcessUpdateQueue fuel s else Done s) in
      let s2 := if bool_decide (workers_ s1 = []) then allocate_workers s1 else s1 in
      let* (ws, queue, jobs) :=
        dispatch_loop (ticket_heap s2) (copied_viewer_node_ s2)
          (workers_ s2) (render_queue_ s2) in
      Done (set_pool (pool_ s2 ++ jobs) (set_render_queue queue (set_workers ws s2))).

(** The loop of [WorkerFinished] that clears the sender's busy flag. *)
Fixpoint set_idle (sender : nat) (ws : list WorkerData) : list WorkerData :=
  match ws with
  | [] => []
  | data :: ws' =>
      if bool_decide (worker data = sender) then mkWorker (worker data) false :: ws'
      else data :: set_idle sender ws'
  end.

Definition WorkerFinished (fuel : nat) (sender : nat) (s : RenderBackend)
    : Outcome RenderBackend :=
  let s1 := set_workers (set_idle sender (workers_ s)) s in
  match viewer_node_ s1 with
  | Some _ => RunNextJob fuel s1
  | None => Done s1
  end.

(** ** [SetViewerNode] and [Close] *)

(** The block guarded by [if (old_viewer)]. *)
Definition detach (old_viewer : Node) (s : RenderBackend) : RenderBackend :=
  (* pool_.clear(); pool_.waitForDone(); *)
  let s1 := set_pool [] s in
  let s2 := ClearVideoQueue s1 in
  let s3 := set_deleted_later
              (deleted_later s2 ++ map snd (map_to_list (copy_map_ s2))) s2 in
  let s4 := set_graph_update_queue []
              (set_copied_viewer_node None (set_copy_map ∅ s3)) in
  set_graph_changed_from
    (filter (λ v, v ≠ old_viewer) (graph_changed_from s4)) s4.

(** The block guarded by [if (viewer_node_)]. *)
Definition attach (fuel : nat) (viewer : Node) (s : RenderBackend)
    : Outcome RenderBackend :=
  let '(w, copied) := copy (graph s) viewer in
  let s1 := set_copy_map (<[viewer := copied]> (copy_map_ s))
              (set_copied_viewer_node (Some copied) (set_graph w s)) in
  let* s2 := NodeGraphChanged (texture_input viewer) s1 in
  let* s3 := NodeGraphChanged (samples_input viewer) s2 in
  let* s4 := ProcessUpdateQueue fuel s3 in
  if update_with_graph_ s4
  then Done (set_graph_changed_from (graph_changed_from s4 ++ [viewer]) s4)
  else Done s4.

Definition SetViewerNode (fuel : nat) (viewer_node : option Node)
    (s : RenderBackend) : Outcome RenderBackend :=
  if bool_decide (viewer_node_ s = viewer_node) then Done s
  else
    let old_viewer := viewer_node_ s in
    let s1 := match viewer_node with
              | None => set_viewer_node viewer_node s
              | Some _ => s
              end in
    let s2 := match old_viewer with
              | Some old => detach old s1
              | None => s1
              end in
    let s3 := match viewer_node with
              | Some _ => set_viewer_node viewer_node s2
              | None => s2
              end in
    match viewer_node_ s3 with
    | Some viewer => attach fuel viewer s3
    | None => Done s3
    end.

Definition Close (fuel : nat) (s : RenderBackend) : Outcome RenderBackend :=
  let* s1 := SetViewerNode fuel None s in
  Done (set_workers [] s1).

(** ** Runs of the backend

    The state the constructor builds, and the calls that reach the object:
    its public functions, its slots, a caller canceling a ticket it holds,
    and the editing layer changing the node graph. *)

(** The constructor sets [update_with_graph_] to [false]; its setter lives in
    the header, so the flag is a parameter here, like the capacity of
    [pool_]. *)
Definition initial (w : World) (update : bool) (threads : nat) : RenderBackend :=
  mkBackend w ∅ None update false false [] ∅ None [] [] [] threads [] [] 0 0.

Inductive Call :=
| CallSetViewerNode (viewer_node : option Node)
| CallClearVideoQueue
| CallHash (times : list Q)
| CallRenderFrame (time : Q)
| CallRenderAudio (r_in r_out : Q)
| CallSetVideoParams (valid : bool)
| CallSetAudioParams (valid : bool)
| CallNodeGraphChanged (source : NodeInput)
| CallRunNextJob
| CallWorkerFinished (sender : nat)
| CallCancel (ticket : RenderTicketPtr)
| GraphEdited (edit : World → World).

Definition exec (fuel : nat) (c : Call) (s : RenderBackend)
    : Outcome RenderBackend :=
  match c with
  | CallSetViewerNode v => SetViewerNode fuel v s
  | CallClearVideoQueue => Done (ClearVideoQueue s)
  | CallHash times => Done (snd (Hash times s))
  | CallRenderFrame time => Done (snd (RenderFrame time s))
  | CallRenderAudio r_in r_out => Done (snd (RenderAudio r_in r_out s))
  | CallSetVideoParams b => Done (SetVideoParams b s)
  | CallSetAudioParams b => Done (SetAudioParams b s)
  | CallNodeGraphChanged source => NodeGraphChanged source s
  | CallRunNextJob => RunNextJob fuel s
  | CallWorkerFinished sender => WorkerFinished fuel sender s
  | CallCancel t => Done (set_ticket_heap (alter Cancel t (ticket_heap s)) s)
  | GraphEdited edit => Done (set_graph (edit (graph s)) s)
  end.

Fixpoint run (fuel : nat) (calls : list Call) (s : RenderBackend)
    : Outcome RenderBackend :=
  match calls with
  | [] => Done s
  | c :: rest => let* s1 := exec fuel c s in run fuel rest s1
  end.

(** States the backend can be in: reached from a constructed object by
    calls that all returned. *)
Definition reachable (s : RenderBackend) : Prop :=
  ∃ w update threads fuel calls, run fuel calls (initial w update threads) = Done s.

End Backend.

Arguments RenderBackend : clear implicits.

(** ** [SplitRangeIntoChunks]

    [rational] is modelled by [Q] and [TimeRange(in, out)] is the pair of its
    bounds.  A finite [double] is modelled by the rational it denotes, and an
    operation on doubles by the exact operation followed by the rounding of
    the binary64 format. *)

Record TimeRange := mkRange { range_in : Q; range_out : Q }.

(** [int] is a 32-bit signed integer.  Converting a [double] that lies
    outside its range to [int], and overflowing it in [*] or [+], are
    undefined in C++: the model has no result ([None]) there. *)
Definition int_of (z : Z) : option Z :=
  if ((- 2 ^ 31 <=? z) && (z <? 2 ^ 31))%Z then Some z else None.

(** The integer nearest to [m], the even one of the two when [m] lies
    halfway. *)
Definition round_half_even (m : Q) : Z :=
  let f := Qfloor m in
  match (m - inject_Z f ?= 1 # 2)%Q with
  | Lt => f
  | Gt => (f + 1)%Z
  | Eq => if Z.even f then f else (f + 1)%Z
  end.

(** The exponent [e] with [2^e <= a < 2^(e+1)], for [0 < a]. *)
Definition binade (a : Q) : Z :=
  if Qle_bool 1 a then Z.log2 (Qfloor a)
  else (- Z.log2_up (Qceiling (/ a)))%Z.

(** The double nearest to [x], ties to even: [x] rounded to 53 significant
    bits.  Magnitudes are taken in the normal range of the format (neither
    overflow to infinity nor subnormal numbers are modelled); the result is
    in lowest terms. *)
Definition round_binary64 (x : Q) : Q :=
  if Qeq_bool x 0 then 0%Q
  else
    let ulp := (2 ^ (binade (Qabs x) - 52))%Q in
    Qred (inject_Z (round_half_even (x / ulp)) * ulp).

(** [x / y] on doubles. *)
Definition double_div (x y : Q) : Q := round_binary64 (x / y).

(** Qt's [qFloor(v)] is [int(floor(v))] and [qCeil(v)] is [int(ceil(v))]. *)
Definition qFloor (v : Q) : option Z := int_of (Qfloor v).
Definition qCeil (v : Q) : option Z := int_of (Qceiling v).

(** [qMax(a, b)] is [(a < b) ? b : a] and [qMin(a, b)] is [(a < b) ? a : b]. *)
Definition qMax (a b : Q) : Q := if Qlt_le_dec a b then b else a.
Definition qMin (a b : Q) : Q := if Qlt_le_dec a b then a else b.

(** The [for] loop, from [i] on.  [i + chunk_size] is computed in [int], for
    the end of the chunk and for the next [i].  [None] also when the fuel
    runs out before [i] reaches [end_time], which a chunk size of at least 1
    and a fuel of [end_time - i] exclude. *)
Fixpoint SplitRange_loop (fuel : nat) (chunk_size : Z) (r : TimeRange)
    (end_time i : Z) : option (list TimeRange) :=
  if (i <? end_time)%Z then
    match fuel with
    | O => None
    | S fuel' =>
        next ← int_of (i + chunk_size);
        let chunk := mkRange (qMax (range_in r) (inject_Z i))
                       (qMin (range_out r) (inject_Z next)) in
        rest ← SplitRange_loop fuel' chunk_size r end_time next;
        Some (chunk :: rest)
    end
  else Some [].

(** [rational::toDouble] belongs to the class [rational], which is declared
    outside this file: it is the parameter [toDouble], giving the rational
    that the resulting double denotes.  [static_cast<double>(chunk_size)] is
    exact.  The chunk size, a constant of the source, is a parameter here and
    fixed below. *)
Definition SplitRangeIntoChunks_with (toDouble : Q → Q) (chunk_size : Z)
    (r : TimeRange) : option (list TimeRange) :=
  floor_in ← qFloor (double_div (toDouble (range_in r)) (inject_Z chunk_size));
  start_time ← int_of (floor_in * chunk_size);
  ceil_out ← qCeil (double_div (toDouble (range_out r)) (inject_Z chunk_size));
  end_time ← int_of (ceil_out * chunk_size);
  SplitRange_loop (Z.to_nat (end_time - start_time)) chunk_size r
    end_time start_time.

(** [const int chunk_size = 2;] *)
Definition chunk_size : Z := 2.

Definition SplitRangeIntoChunks (toDouble : Q → Q) (r : TimeRange)
    : option (list TimeRange) :=
  SplitRangeIntoChunks_with toDouble chunk_size r.

(** [chunks] tile the range from [lo] to [hi] in steps of [c]: each chunk
    starts where the previous one ended (the first at [lo], the last ends at
    [hi]), stays inside the range, is at most [c] long, and every boundary
    between two chunks is a multiple of [c].  An empty list tiles the empty
    range only. *)
Fixpoint tiles (c : Z) (lo hi : Q) (chunks : list TimeRange) : Prop :=
  match chunks with
  | [] => (lo == hi)%Q
  | chunk :: rest =>
      (range_in chunk == lo
       ∧ lo <= range_out chunk
       ∧ range_out chunk <= hi
       ∧ range_out chunk - range_in chunk <= inject_Z c)%Q
      ∧ (rest ≠ [] → ∃ k : Z, range_out chunk = inject_Z (k * c))
      ∧ tiles c (range_out chunk) hi rest
  end.

(** [4 + 2^-60], which is not a double: the nearest double is [4].  The
    examples convert a rational to its nearest double, [round_binary64]. *)
Definition just_above_4 : Q := 4 + / inject_Z (2 ^ 60).

(** ** A concrete node graph

    Modelled from the spec: the classes [Node], [NodeInput], [NodeInputArray]
    and [NodeParam] are declared outside this file.  The instance below
    follows the spec's description of the interface consumed from the editing
    layer: a directed graph of nodes connected from an output to an input,
    array inputs that contain sub-inputs, a copy that clones a node without
    edges or values, and the exclusive (non-shared) dependencies of an
    input.  It is used to run the backend on concrete graphs. *)

Module Concrete.

Record NodeObj := mkObj {
  obj_inputs : list string;
  obj_arrays : list (string * list string);
  obj_is_track : bool;
  obj_track_type : nat
}.

Record Graph := mkGraph {
  nodes : gmap Node NodeObj;
  wires : list NodeEdge;
  values : list (NodeInput * nat);
  next_node : Node
}.

Definition array_members (g : Graph) (i : NodeInput) : option (list string) :=
  match nodes g !! parentNode i with
  | None => None
  | Some o => snd <$> find (λ a, bool_decide (fst a = id i)) (obj_arrays o)
  end.

Definition is_array (g : Graph) (i : NodeInput) : bool :=
  bool_decide (is_Some (array_members g i)).

Definition members (g : Graph) (i : NodeInput) : list NodeInput :=
  match array_members g i with
  | None => []
  | Some l => map (mkInput (parentNode i)) l
  end.

(** "transitively feeds": some output of [n] is wired to [input], to a
    member of the array [input], or to an input of a node that feeds it. *)
Fixpoint outputs_to (fuel : nat) (g : Graph) (n : Node) (input : NodeInput) : bool :=
  match fuel with
  | O => false
  | S fuel' =>
      existsb (λ e,
        bool_decide (out_parentNode (edge_output e) = n)
        && (bool_decide (edge_input e = input)
            || (is_array g input && contains (members g input) (edge_input e))
            || outputs_to fuel' g (parentNode (edge_input e)) input))
        (wires g)
  end.

Definition wired_output (g : Graph) (i : NodeInput) : option NodeOutput :=
  edge_output <$> find (λ e, bool_decide (edge_input e = i)) (wires g).

Definition wires_of (g : Graph) (i : NodeInput) : list NodeEdge :=
  filter (λ e, edge_input e = i) (wires g).

Definition set_wires (l : list NodeEdge) (g : Graph) : Graph :=
  mkGraph (nodes g) l (values g) (next_node g).

Definition disconnect (g : Graph) (e : NodeEdge) : Graph :=
  set_wires (filter (λ e', e' ≠ e) (wires g)) g.

Definition connect (g : Graph) (o : NodeOutput) (i : NodeInput) : Graph :=
  set_wires (filter (λ e', edge_input e' ≠ i) (wires g) ++ [mkEdge o i]) g.

Definition value_of (g : Graph) (i : NodeInput) : option nat :=
  snd <$> find (λ v, bool_decide (fst v = i)) (values g).

Definition copy_value (g : Graph) (src dst : NodeInput) : Graph :=
  let others := filter (λ v, fst v ≠ dst) (values g) in
  mkGraph (nodes g) (wires g)
    (match value_of g src with
     | None => others
     | Some v => (dst, v) :: others
     end)
    (next_node g).

Definition inputs_of (g : Graph) (n : Node) : list NodeInput :=
  match nodes g !! n with
  | None => []
  | Some o => map (mkInput n) (obj_inputs o)
  end.

Definition copy_inputs (g : Graph) (src dst : Node) : Graph :=
  foldl (λ g' i, copy_value g' i (mkInput dst (id i))) g (inputs_of g src).

Definition copy_node (g : Graph) (n : Node) : Graph * Node :=
  let fresh_node := next_node g in
  (mkGraph (match nodes g !! n with
            | None => nodes g
            | Some o => <[fresh_node := mkObj (obj_inputs o) (obj_arrays o)
                                          (obj_is_track o) 0]> (nodes g)
            end)
     (wires g) (values g) (S fresh_node),
   fresh_node).

Definition is_track (g : Graph) (n : Node) : bool :=
  match nodes g !! n with
  | None => false
  | Some o => obj_is_track o
  end.

Definition copy_track (g : Graph) (dst src : Node) : Graph :=
  match nodes g !! src, nodes g !! dst with
  | Some o, Some o' =>
      mkGraph (<[dst := mkObj (obj_inputs o') (obj_arrays o') (obj_is_track o')
                          (obj_track_type o)]> (nodes g))
        (wires g) (values g) (next_node g)
  | _, _ => g
  end.

(** The nodes that feed [i] and nothing else: the node wired to [i] when its
    output has this single edge, and the exclusive dependencies of that
    node's inputs. *)
Fixpoint exclusive_deps (fuel : nat) (g : Graph) (i : NodeInput)
    (acc : list Node) : list Node :=
  match fuel with
  | O => acc
  | S fuel' =>
      match wired_output g i with
      | None => acc
      | Some o =>
          let n := out_parentNode o in
          if bool_decide (length (filter (λ e, edge_output e = o) (wires g)) = 1)
             && negb (contains acc n)
          then foldl (λ acc' j, exclusive_deps fuel' g j acc')
                 (acc ++ [n]) (inputs_of g n)
          else acc
      end
  end.

Global Instance graph_api : NodeGraph Graph := {|
  OutputsTo g n i := outputs_to (S (length (wires g))) g n i;
  IsArray := is_array;
  sub_params := members;
  connected_output := wired_output;
  edges := wires_of;
  DisconnectEdge := disconnect;
  ConnectEdge := connect;
  CopyValues := copy_value;
  CopyInputs := copy_inputs;
  copy := copy_node;
  IsTrack := is_track;
  copy_track_type := copy_track;
  GetInputsIncludingArrays := inputs_of;
  GetExclusiveDependencies g i := exclusive_deps (S (length (wires g))) g i [];
  texture_input v := mkInput v "tex_in";
  samples_input v := mkInput v "samples_in"
|}.

End Concrete.

(** ** Properties of the pending-update queue *)

Section QueueProperties.
Context {World : Type} `{NodeGraph World}.

(** The three tests of [NodeGraphChanged] that end in [return]: [source] is
    already covered by the queued input. *)
Definition covered (w : World) (source queued_input : NodeInput) : bool :=
  bool_decide (source = queued_input)
  || OutputsTo w (parentNode source) queued_input
  || (IsArray w queued_input && contains (sub_params w queued_input) source).

(** The test that ends in [removeAt]: [source] supersedes the queued input. *)
Definition supersedes (w : World) (source queued_input : NodeInput) : bool :=
  OutputsTo w (parentNode queued_input) source
  || (IsArray w source && contains (sub_params w source) queued_input).



(** Every queued input belongs to a node that has a copy. *)
Definition queue_has_copies (s : RenderBackend World) : Prop :=
  ∀ q, q ∈ graph_update_queue_ s → is_Some (copy_map_ s !! parentNode q).

(** The notification contract for one notification: an input whose node has
    no copy yet is covered by a copy that is already pending. *)
Definition notification_contract (source : NodeInput) (s : RenderBackend World)
    : Prop :=
  copy_map_ s !! parentNode source = None →
  ∃ q, q ∈ graph_update_queue_ s
       ∧ OutputsTo (graph s) (parentNode source) q = true.

(** What a submission of a ticket of the given type and payload did:
    nothing when no viewer is attached, else a fresh ticket at the back of
    the render queue and one more queued invocation of [RunNextJob]. *)
Definition submitted (type : TicketType) (time : TicketTime)
    (s : RenderBackend World) (r : option RenderTicketPtr * RenderBackend World)
    : Prop :=
  match viewer_node_ s with
  | None => r = (None, s)
  | Some _ =>
      ∃ ticket,
        fst r = Some ticket
        ∧ ticket_heap s !! ticket = None
        ∧ ticket_heap (snd r) !! ticket = Some (mkTicket type time false)
        ∧ render_queue_ (snd r) = render_queue_ s ++ [ticket]
        ∧ length (render_queue_ (snd r)) = S (length (render_queue_ s))
        ∧ queued_RunNextJob (snd r) = S (queued_RunNextJob s)
  end.

(** The part of the backend that copying the graph does not touch: all but
    [graph], [copy_map_], the [deleteLater] log and the pending-update
    queue. *)
Definition outside_copy (s : RenderBackend World) :=
  (ticket_heap s, viewer_node_ s, update_with_graph_ s, video_params_valid s,
   audio_params_valid s, render_queue_ s, copied_viewer_node_ s, workers_ s,
   pool_ s, maxThreadCount s, graph_changed_from s, queued_RunNextJob s,
   next_worker s).

Definition copy_frame (s s' : RenderBackend World) : Prop :=
  outside_copy s' = outside_copy s
  ∧ graph_update_queue_ s' = graph_update_queue_ s.

(** [RunNextJob] returns before the dispatch loop: nothing to render,
    invalid parameters, or updates pending while a worker is busy. *)
Definition returns_early (s : RenderBackend World) : bool :=
  bool_decide (render_queue_ s = [])
  || (negb (video_params_valid s) || negb (audio_params_valid s))
  || (update_with_graph_ s && negb (bool_decide (graph_update_queue_ s = []))
      && negb (all_workers_available (workers_ s))).

(** Worker slots that can take a job in this call: all [maxThreadCount]
    slots when none is allocated yet, else the slots that are not busy. *)
Definition idle_slots (s : RenderBackend World) : nat :=
  if bool_decide (workers_ s = []) then maxThreadCount s
  else length (filter (λ data, busy data = false) (workers_ s)).

(** Every [NodeGraphChanged] of a run is called in a state where the
    notification contract holds for its input. *)
Fixpoint respects_contract (fuel : nat) (calls : list Call)
    (s : RenderBackend World) : Prop :=
  match calls with
  | [] => True
  | c :: rest =>
      match c with
      | CallNodeGraphChanged source => notification_contract source s
      | _ => True
      end
      ∧ match exec fuel c s with
        | inr s1 => respects_contract fuel rest s1
        | inl _ => True
        end
  end.

(** Between [s] and [s'] a copy left [copy_map_] only by being handed to
    [deleteLater]. *)
Definition kept_or_deleted (s s' : RenderBackend World) : Prop :=
  (∀ c, c ∈ deleted_later s → c ∈ deleted_later s')
  ∧ ∀ n c, copy_map_ s !! n = Some c →
           copy_map_ s' !! n = Some c ∨ c ∈ deleted_later s'.

End QueueProperties.

(** ** Invariants of runs *)

Section RunInvariants.
Context {World : Type} `{NodeGraph World}.

(** The tickets the backend is responsible for: those of the jobs handed to
    the pool since the viewer was attached, then those still queued. *)
Definition tracked_tickets (s : RenderBackend World) : list RenderTicketPtr :=
  map job_ticket (pool_ s) ++ render_queue_ s.

(** No ticket is tracked twice, every tracked ticket is a live object, and no
    worker sits in two slots. *)
Definition well_tracked (s : RenderBackend World) : Prop :=
  NoDup (tracked_tickets s)
  ∧ (∀ t, t ∈ tracked_tickets s → is_Some (ticket_heap s !! t))
  ∧ NoDup (map worker (workers_ s)).

End RunInvariants.

(** ** Example graphs and runs *)

Module Examples.
Import Concrete.

Definition viewer : Node := 0.
Definition tex_in := mkInput viewer "tex_in".
Definition samples_in := mkInput viewer "samples_in".
Definition out_of (n : Node) := mkOutput n "out".

Definition viewer_obj := mkObj ["tex_in"; "samples_in"] [] false 0.

(** A viewer fed by node 1, which has an array input [arr] with the member
    [arr_0] and a plain input [x]; node 2, with the input [q], feeds [x]. *)
Definition arr := mkInput 1 "arr".
Definition arr_0 := mkInput 1 "arr_0".
Definition x := mkInput 1 "x".
Definition q := mkInput 2 "q".

Definition array_graph : Graph :=
  mkGraph
    (<[0 := viewer_obj]>
       (<[1 := mkObj ["arr"; "arr_0"; "x"] [("arr", ["arr_0"])] false 0]>
          (<[2 := mkObj ["q"] [] false 0]> ∅)))
    [mkEdge (out_of 1) tex_in; mkEdge (out_of 2) x]
    [] 3.

(** A viewer fed by node 1 alone; node 1 has the input [p]. *)
Definition p := mkInput 1 "p".

Definition chain_graph : Graph :=
  mkGraph
    (<[0 := viewer_obj]> (<[1 := mkObj ["p"] [] false 0]> ∅))
    [mkEdge (out_of 1) tex_in]
    [] 2.


(** The state of a run, or the state it started from when a call failed. *)
Definition state_after (fuel : nat) (calls : list (@Call Graph))
    (s : RenderBackend Graph) : RenderBackend Graph :=
  match run fuel calls s with
  | inr s' => s'
  | inl _ => s
  end.

(** The viewer of [array_graph] is attached and [q] changes. *)
Definition array_attach : list (@Call Graph) :=
  [CallSetViewerNode (Some viewer); CallNodeGraphChanged q].

Definition q_pending : RenderBackend Graph :=
  state_after 20 array_attach (initial array_graph true 2).

Definition x_pending : RenderBackend Graph :=
  state_after 20 [CallNodeGraphChanged x] q_pending.

(** Then the array [arr] changes, and the editing layer wires node 2 to the
    array member [arr_0]. *)
Definition q_arr_pending : RenderBackend Graph :=
  state_after 20
    [CallNodeGraphChanged arr;
     GraphEdited (λ g, connect g (out_of 2) arr_0)]
    q_pending.

(** [arr] changes while nothing else is pending. *)
Definition arr_pending : RenderBackend Graph :=
  state_after 20 [CallSetViewerNode (Some viewer); CallNodeGraphChanged arr]
    (initial array_graph true 2).



(** The viewer of [chain_graph] is attached; no output parameters yet. *)
Definition chain_attached : RenderBackend Graph :=
  state_after 20 [CallSetViewerNode (Some viewer)] (initial chain_graph true 2).

(** Valid parameters, and one frame requested. *)
Definition frame_queued : RenderBackend Graph :=
  state_after 20
    [CallSetVideoParams true; CallSetAudioParams true; CallRenderFrame 1]
    chain_attached.

(** The caller cancels that ticket while it is queued. *)
Definition frame_canceled : RenderBackend Graph :=
  state_after 20 [CallCancel 0] frame_queued.

(** The frame is being rendered by the first worker; [p] changes and a
    second frame is requested. *)
Definition busy_pending : RenderBackend Graph :=
  state_after 20
    [CallRunNextJob; CallNodeGraphChanged p; CallRenderFrame 2]
    frame_queued.

(** In [chain_graph], with a frame requested, the editing layer unwires
    node 1 from the viewer; the viewer's input and then [p] are notified. *)
Definition unwire_then_edit : list (@Call Graph) :=
  [CallSetViewerNode (Some viewer);
   CallSetVideoParams true; CallSetAudioParams true; CallRenderFrame 1;
   GraphEdited (λ g, disconnect g (mkEdge (out_of 1) tex_in));
   CallNodeGraphChanged tex_in;
   CallNodeGraphChanged p].

Definition unwired_pending : RenderBackend Graph :=
  state_after 20 unwire_then_edit (initial chain_graph true 2).

(** The frame of [frame_queued] is handed to the first worker. *)
Definition frame_running : RenderBackend Graph :=
  state_after 20 [CallRunNextJob] frame_queued.

(** The viewer is detached while that worker is still marked busy. *)
Definition detached_busy : RenderBackend Graph :=
  state_after 20 [CallSetViewerNode None] frame_running.

(** The calls that lead to [busy_pending], from the constructed object. *)
Definition busy_pending_calls : list (@Call Graph) :=
  [CallSetViewerNode (Some viewer);
   CallSetVideoParams true; CallSetAudioParams true; CallRenderFrame 1;
   CallRunNextJob; CallNodeGraphChanged p; CallRenderFrame 2].

(** Node 1 of [chain_graph] copied into a backend that has no copy yet. *)
Definition node1_copied : RenderBackend Graph * Node :=
  match CopyNodeConnections 20 1 (initial chain_graph true 2) with
  | inr r => r
  | inl _ => (initial chain_graph true 2, 0)
  end.

(** The flush of the update pending in [q_pending]. *)
Definition q_flushed : RenderBackend Graph :=
  match ProcessUpdateQueue 20 q_pending with
  | inr s => s
  | inl _ => q_pending
  end.

End Examples.

(** * Theorems *)

Section QueueTheorems.
Context {World : Type} `{NodeGraph World}.
Implicit Types (w : World) (s : RenderBackend World) (source : NodeInput).
Implicit Types (queue : list NodeInput).

Lemma set_graph_update_queue_id s :
  set_graph_update_queue (graph_update_queue_ s) s = s.
Proof. by destruct s. Qed.

Lemma NodeGraphChanged_loop_cons w source q rest :
  NodeGraphChanged_loop w source (q :: rest) =
    if covered w source q then (q :: rest, false)
    else if supersedes w source q then NodeGraphChanged_loop w source rest
    else let '(rest', finished) := NodeGraphChanged_loop w source rest in
         (q :: rest', finished).
Proof.
  unfold covered, supersedes. simpl.
  destruct (bool_decide (source = q)); [done|].
  destruct (OutputsTo w (parentNode source) q); [done|].
  by destruct (IsArray w q && contains (sub_params w q) source).
Qed.

(** The loop runs to its end exactly when no queued input covers [source];
    it then has removed the superseded entries. *)
Lemma NodeGraphChanged_loop_uncovered w source queue :
  (∀ x, x ∈ queue → covered w source x = false) →
  NodeGraphChanged_loop w source queue =
    (filter (λ x, supersedes w source x = false) queue, true).
Proof.
  induction queue as [|q rest IH]; intros Hcov; [done|].
  rewrite NodeGraphChanged_loop_cons, Hcov by left.
  rewrite IH by (intros x Hx; apply Hcov; by right).
  destruct (supersedes w source q) eqn:Hs.
  - by rewrite filter_cons_False by (rewrite Hs; done).
  - by rewrite filter_cons_True by done.
Qed.

(** The loop returns at the first queued input that covers [source], with
    the superseded entries before it removed. *)
Lemma NodeGraphChanged_loop_covered w source pre c post :
  (∀ x, x ∈ pre → covered w source x = false) →
  covered w source c = true →
  NodeGraphChanged_loop w source (pre ++ c :: post) =
    (filter (λ x, supersedes w source x = false) pre ++ c :: post, false).
Proof.
  intros Hpre Hc. induction pre as [|q pre IH]; simpl app.
  - by rewrite NodeGraphChanged_loop_cons, Hc.
  - rewrite NodeGraphChanged_loop_cons, Hpre by left.
    rewrite IH by (intros x Hx; apply Hpre; by right).
    destruct (supersedes w source q) eqn:Hs.
    + by rewrite filter_cons_False by (rewrite Hs; done).
    + by rewrite filter_cons_True by done.
Qed.

(** A queue splits at its first entry that covers [source]. *)
Lemma first_covered w source queue :
  (∃ q, q ∈ queue ∧ covered w source q = true) →
  ∃ pre c post, queue = pre ++ c :: post
    ∧ (∀ x, x ∈ pre → covered w source x = false)
    ∧ covered w source c = true.
Proof.
  induction queue as [|q rest IH]; intros (x & Hx & Hc).
  - by apply elem_of_nil in Hx.
  - destruct (covered w source q) eqn:Hq.
    + exists [], q, rest. split_and!; [done| |done].
      intros y Hy. by apply elem_of_nil in Hy.
    + apply elem_of_cons in Hx as [->|Hx]; [congruence|].
      destruct IH as (pre & c & post & -> & Hpre & Hcc); [by eauto|].
      exists (q :: pre), c, post. split_and!; [done| |done].
      intros y [->|Hy]%elem_of_cons; [done|by apply Hpre].
Qed.






Lemma covered_cases w source queue :
  (∀ x, x ∈ queue → covered w source x = false)
  ∨ (∃ q, q ∈ queue ∧ covered w source q = true).
Proof.
  induction queue as [|q rest [IH|(y & Hy & Hc)]].
  - left. intros x Hx. by apply elem_of_nil in Hx.
  - destruct (covered w source q) eqn:Hq.
    + right. exists q. split; [by left|done].
    + left. intros x [->|Hx]%elem_of_cons; [done|by apply IH].
  - right. exists y. split; [by right|done].
Qed.





(** C4, amended: when a queued input already covers the new one (the new
    input is a member of a queued array, is queued itself, or its node feeds
    a queued input), the new input is not appended.  The queue keeps the
    first covering entry and everything behind it; of the entries before it,
    those the new input supersedes are removed.  The queue is unchanged when
    no entry before the first covering one is superseded. *)
Theorem NodeGraphChanged_covered source s :
  (∃ q, q ∈ graph_update_queue_ s ∧ covered (graph s) source q = true) →
  ∃ pre c post,
    graph_update_queue_ s = pre ++ c :: post
    ∧ (∀ x, x ∈ pre → covered (graph s) source x = false)
    ∧ covered (graph s) source c = true
    ∧ NodeGraphChanged source s =
        Done (set_graph_update_queue
                (if bool_decide (is_Some (copy_map_ s !! parentNode source))
                 then filter (λ x, supersedes (graph s) source x = false) pre
                      ++ c :: post
                 else graph_update_queue_ s) s)
    ∧ ((∀ x, x ∈ pre → supersedes (graph s) source x = false) →
       NodeGraphChanged source s = Done s).
Proof.
  intros Hcov.
  destruct (first_covered _ _ _ Hcov) as (pre & c & post & Hq & Hpre & Hc).
  exists pre, c, post. split_and!; [done..| |].
  - unfold NodeGraphChanged.
    destruct (copy_map_ s !! parentNode source) as [n|] eqn:Hmap.
    + rewrite Hq, NodeGraphChanged_loop_covered by done.
      by rewrite bool_decide_eq_true_2 by eauto.
    + rewrite (bool_decide_eq_false_2 (is_Some None)) by apply is_Some_None.
      rewrite set_graph_update_queue_id.
      destruct (bool_decide_reflect (graph_update_queue_ s = [])) as [Hnil|_];
        [|done].
      rewrite Hq in Hnil. by destruct pre.
  - intros Hsup. unfold NodeGraphChanged.
    destruct (copy_map_ s !! parentNode source) as [n|] eqn:Hmap.
    + rewrite Hq, NodeGraphChanged_loop_covered by done.
      replace (filter (λ x, supersedes (graph s) source x = false) pre) with pre.
      * by rewrite <- Hq, set_graph_update_queue_id.
      * clear Hq Hpre. induction pre as [|y pre IH]; [done|].
        rewrite filter_cons_True by (apply Hsup; by left).
        f_equal. apply IH. intros z Hz. apply Hsup. by right.
    + destruct (bool_decide_reflect (graph_update_queue_ s = [])) as [Hnil|_];
        [|done].
      rewrite Hq in Hnil. by destruct pre.
Qed.

End QueueTheorems.

(** ** Tickets and the viewer *)

Section TicketTheorems.
Context {World : Type} `{NodeGraph World}.
Implicit Types (s : RenderBackend World).

Lemma submit_submitted type time s : submitted type time s (submit type time s).
Proof.
  unfold submitted, submit. destruct (viewer_node_ s); [|done].
  exists (fresh (dom (ticket_heap s))). simpl. split_and!; try done.
  - apply not_elem_of_dom, is_fresh.
  - apply lookup_insert_eq.
  - rewrite length_app. simpl. lia.
Qed.

(** C7: each of the three submissions returns null and changes nothing when
    no viewer is attached; otherwise it returns a new ticket of its own
    type, puts it at the back of the render queue, which grows by one, and
    queues an invocation of [RunNextJob]. *)
Theorem submissions_enqueue s (times : list Q) (time r_in r_out : Q) :
  submitted kTypeHash (TimeList times) s (Hash times s)
  ∧ submitted kTypeVideo (TimePoint time) s (RenderFrame time s)
  ∧ submitted kTypeAudio (TimeSpan r_in r_out) s (RenderAudio r_in r_out s).
Proof. split_and!; apply submit_submitted. Qed.

(** C6, amended: the submissions do not look at the output parameters.
    With unset or invalid parameters a submission still returns null only
    when no viewer is attached, and otherwise creates and queues the ticket;
    it is [RunNextJob] that then returns without starting a job, leaving the
    ticket in the queue. *)
Theorem submissions_ignore_params type time fuel s :
  negb (video_params_valid s) || negb (audio_params_valid s) = true →
  submitted type time s (submit type time s)
  ∧ RunNextJob fuel (snd (submit type time s)) = Done (snd (submit type time s)).
Proof.
  intros Hinvalid. split; [apply submit_submitted|].
  unfold RunNextJob.
  assert (video_params_valid (snd (submit type time s)) = video_params_valid s
          ∧ audio_params_valid (snd (submit type time s)) = audio_params_valid s)
    as [-> ->].
  { unfold submit. by destruct (viewer_node_ s). }
  rewrite Hinvalid. by case_bool_decide.
Qed.

(** C10: [SetViewerNode] with the viewer that is already set returns at once
    and leaves the backend as it was. *)
Theorem SetViewerNode_same fuel s :
  SetViewerNode fuel (viewer_node_ s) s = Done s.
Proof. unfold SetViewerNode. by rewrite bool_decide_eq_true_2. Qed.

Lemma Cancel_idemp t : Cancel (Cancel t) = Cancel t.
Proof. done. Qed.

Lemma cancel_all_lookup queue heap t :
  cancel_all queue heap !! t =
    if bool_decide (t ∈ queue) then Cancel <$> (heap !! t) else heap !! t.
Proof.
  unfold cancel_all. revert heap.
  induction queue as [|t' queue IH]; intros heap.
  - by rewrite bool_decide_eq_false_2 by apply not_elem_of_nil.
  - simpl foldl. rewrite IH. destruct (decide (t = t')) as [->|Hne].
    + rewrite lookup_alter_eq.
      rewrite (bool_decide_eq_true_2 (t' ∈ t' :: queue)) by left.
      case_bool_decide; [|done].
      destruct (heap !! t'); [|done]. simpl. by rewrite Cancel_idemp.
    + rewrite lookup_alter_ne by done.
      case_bool_decide as Hin.
      * by rewrite bool_decide_eq_true_2 by (by right).
      * rewrite bool_decide_eq_false_2; [done|].
        by intros [?|?]%elem_of_cons.
Qed.

(** C5: detaching the viewer ([SetViewerNode(nullptr)] while a viewer is
    set) empties the render queue after canceling every ticket in it, calls
    [deleteLater] on every copied node, clears the copy map and the
    pending-update queue, and disconnects [GraphChangedFrom] of the old
    viewer. *)
Theorem SetViewerNode_detach fuel s old_viewer :
  viewer_node_ s = Some old_viewer →
  ∃ s', SetViewerNode fuel None s = Done s'
    ∧ viewer_node_ s' = None
    ∧ render_queue_ s' = []
    ∧ (∀ t, t ∈ render_queue_ s →
            ticket_heap s' !! t = Cancel <$> (ticket_heap s !! t))
    ∧ (∀ n c, copy_map_ s !! n = Some c → c ∈ deleted_later s')
    ∧ copy_map_ s' = ∅
    ∧ copied_viewer_node_ s' = None
    ∧ graph_update_queue_ s' = []
    ∧ (old_viewer ∉ graph_changed_from s')
    ∧ pool_ s' = [].
Proof.
  intros Hold. unfold SetViewerNode. rewrite Hold.
  rewrite bool_decide_eq_false_2 by done. simpl.
  eexists. split; [reflexivity|]. simpl. split_and!; try done.
  - intros t Ht. rewrite cancel_all_lookup.
    by rewrite bool_decide_eq_true_2.
  - intros n c Hn. apply elem_of_app. right.
    apply (list_elem_of_fmap_2 snd _ (n, c)).
    by apply elem_of_map_to_list.
  - intros Hin. apply list_elem_of_filter in Hin. tauto.
Qed.

End TicketTheorems.

(** ** What copying leaves alone *)

Section CopyFrame.
Context {World : Type} `{NodeGraph World}.
Implicit Types (s : RenderBackend World).

Lemma copy_frame_refl s : copy_frame s s.
Proof. done. Qed.

Lemma copy_frame_trans s1 s2 s3 :
  copy_frame s1 s2 → copy_frame s2 s3 → copy_frame s1 s3.
Proof. intros [? ?] [? ?]. split; congruence. Qed.

Lemma copy_frame_set_graph w s : copy_frame s (set_graph w s).
Proof. done. Qed.

Lemma copy_frame_set_copy_map m s : copy_frame s (set_copy_map m s).
Proof. done. Qed.

Lemma copy_frame_set_deleted_later d s : copy_frame s (set_deleted_later d s).
Proof. done. Qed.

Lemma CopyNodeMakeConnection_with_frame rec src_input dst_input s s' :
  (∀ n s1 s2 d, rec n s1 = Done (s2, d) → copy_frame s1 s2) →
  CopyNodeMakeConnection_with rec src_input dst_input s = Done s' →
  copy_frame s s'.
Proof.
  intros Hrec. unfold CopyNodeMakeConnection_with.
  destruct (connected_output (graph s) src_input) as [out|].
  - destruct (rec (out_parentNode out) s) as [f|[s1 d]] eqn:Hr; [done|].
    simpl. destruct (connected_output (graph s1) src_input); [|done].
    intros [= <-]. eapply copy_frame_trans; [by eapply Hrec|].
    apply copy_frame_set_graph.
  - by intros [= <-].
Qed.

Lemma copy_connections_loop_frame rec srcs dsts s s' :
  (∀ n s1 s2 d, rec n s1 = Done (s2, d) → copy_frame s1 s2) →
  copy_connections_loop rec srcs dsts s = Done s' →
  copy_frame s s'.
Proof.
  intros Hrec. revert dsts s.
  induction srcs as [|src srcs IH]; intros dsts s; simpl.
  - by intros [= <-].
  - destruct dsts as [|dst dsts]; [done|].
    destruct (CopyNodeMakeConnection_with rec src dst s) as [f|s1] eqn:Hc;
      [done|].
    simpl. intros Hl. eapply copy_frame_trans.
    + by eapply CopyNodeMakeConnection_with_frame.
    + by eapply IH.
Qed.

Lemma CopyNodeConnections_frame fuel src_node s s' d :
  CopyNodeConnections fuel src_node s = Done (s', d) → copy_frame s s'.
Proof.
  revert src_node s s' d.
  induction fuel as [|fuel IH]; intros src_node s s' d; simpl; [done|].
  destruct (copy_map_ s !! src_node) as [dst|].
  - destruct (copy_connections_loop _ _ _ _) as [f|s3] eqn:Hl; [done|].
    simpl. intros [= <- <-].
    eapply copy_frame_trans; [|by eapply copy_connections_loop_frame].
    apply copy_frame_set_graph.
  - destruct (copy (graph s) src_node) as [w dst].
    destruct (copy_connections_loop _ _ _ _) as [f|s3] eqn:Hl; [done|].
    simpl. intros [= <- <-].
    eapply copy_frame_trans; [|by eapply copy_connections_loop_frame].
    done.
Qed.

Lemma remove_old_deps_frame old_deps s s' :
  remove_old_deps old_deps s = Done s' → copy_frame s s'.
Proof.
  revert s. induction old_deps as [|i rest IH]; intros s; simpl.
  - by intros [= <-].
  - destruct (copy_map_key (copy_map_ s) i); [|done].
    intros Hr. apply IH in Hr. eapply copy_frame_trans; [|exact Hr].
    by split.
Qed.

Lemma foreach_input_frame f l s s' :
  (∀ i s1 s2, f i s1 = Done s2 → copy_frame s1 s2) →
  foreach_input f l s = Done s' → copy_frame s s'.
Proof.
  intros Hf. revert s. induction l as [|i rest IH]; intros s; simpl.
  - by intros [= <-].
  - destruct (f i s) as [e|s1] eqn:Hi; [done|]. simpl. intros Hr.
    eapply copy_frame_trans; [by eapply Hf|by apply IH].
Qed.

Lemma CopyNodeInputValue_frame fuel input s s' :
  CopyNodeInputValue fuel input s = Done s' → copy_frame s s'.
Proof.
  revert input s s'.
  induction fuel as [|fuel IH]; intros input s s'; simpl; [done|].
  destruct (copy_map_ s !! parentNode input) as [our_copy_node|]; [|done].
  set (our_copy := GetInputWithID our_copy_node (id input)).
  set (s1 := set_graph (CopyValues (graph s) input our_copy) s).
  destruct (is_connected _ input || is_connected _ our_copy).
  - destruct (remove_old_deps _ s1) as [e|s1a] eqn:Hr; [done|]. simpl.
    destruct (disconnect_edges fuel our_copy (graph s1a)) as [e|w] eqn:Hd;
      [done|]. simpl.
    destruct (CopyNodeMakeConnection fuel input our_copy (set_graph w s1a))
      as [e|s2] eqn:Hc; [done|]. simpl.
    assert (copy_frame s s2) as Hs2.
    { eapply copy_frame_trans; [|eapply CopyNodeMakeConnection_with_frame;
        [|exact Hc]].
      - eapply copy_frame_trans; [|apply copy_frame_set_graph].
        eapply copy_frame_trans; [|by eapply remove_old_deps_frame]. done.
      - intros n s3 s4 d. apply CopyNodeConnections_frame. }
    destruct (IsArray (graph s2) input).
    + intros Hf. eapply copy_frame_trans; [exact Hs2|].
      eapply foreach_input_frame; [|exact Hf]. apply IH.
    + by intros [= <-].
  - simpl. destruct (IsArray _ input).
    + intros Hf. eapply copy_frame_trans; [apply copy_frame_set_graph|].
      eapply foreach_input_frame; [|exact Hf]. apply IH.
    + by intros [= <-].
Qed.

(** A flush that returns has drained the pending-update queue and touched
    nothing outside the copy. *)
Lemma ProcessUpdateQueue_loop_drains fuel queue s s' :
  ProcessUpdateQueue_loop fuel queue s = Done s' →
  graph_update_queue_ s' = [] ∧ outside_copy s' = outside_copy s.
Proof.
  revert s. induction queue as [|i rest IH]; intros s; simpl.
  - by intros [= <-].
  - destruct (CopyNodeInputValue fuel i _) as [e|s1] eqn:Hc; [done|].
    simpl. intros Hl. apply IH in Hl as [-> ->].
    apply CopyNodeInputValue_frame in Hc as [-> _]. done.
Qed.

Lemma ProcessUpdateQueue_drains fuel s s' :
  ProcessUpdateQueue fuel s = Done s' →
  graph_update_queue_ s' = [] ∧ outside_copy s' = outside_copy s.
Proof. apply ProcessUpdateQueue_loop_drains. Qed.

End CopyFrame.

(** ** What copying removes from the copy map *)

Section CopyRemoves.
Context {World : Type} `{NodeGraph World}.
Implicit Types (s : RenderBackend World).

Lemma kept_or_deleted_refl s : kept_or_deleted s s.
Proof. split; [done|]. intros n c Hn. by left. Qed.

Lemma kept_or_deleted_trans s1 s2 s3 :
  kept_or_deleted s1 s2 → kept_or_deleted s2 s3 → kept_or_deleted s1 s3.
Proof.
  intros [Hd12 Hm12] [Hd23 Hm23]. split; [by auto|].
  intros n c Hn. destruct (Hm12 n c Hn) as [Hn2|Hc]; [by apply Hm23|].
  right. by apply Hd23.
Qed.

Lemma kept_or_deleted_set_graph w s : kept_or_deleted s (set_graph w s).
Proof. split; [done|]. intros n c Hn. by left. Qed.

Lemma copy_map_key_lookup (m : gmap Node Node) i k :
  copy_map_key m i = Some k → m !! k = Some i.
Proof.
  unfold copy_map_key. intros Hk. apply fmap_Some in Hk as ([j [k' c]] & Hf & ->).
  apply list_find_Some in Hf as (Hj & Hc & _). simpl in *. subst c.
  apply elem_of_map_to_list. by eapply list_elem_of_lookup_2.
Qed.

Lemma remove_old_deps_kept old_deps s s' :
  remove_old_deps old_deps s = Done s' → kept_or_deleted s s'.
Proof.
  revert s. induction old_deps as [|i rest IH]; intros s; simpl.
  - intros [= <-]. apply kept_or_deleted_refl.
  - destruct (copy_map_key (copy_map_ s) i) as [k|] eqn:Hk; [|done].
    intros Hr. apply IH in Hr.
    eapply kept_or_deleted_trans; [|exact Hr]. split; simpl.
    + intros c Hc. apply elem_of_app. by left.
    + intros n c Hn. destruct (decide (n = k)) as [->|Hne].
      * apply copy_map_key_lookup in Hk. right.
        apply elem_of_app. right. rewrite Hk in Hn. injection Hn as ->. by left.
      * left. by rewrite lookup_delete_ne.
Qed.

Lemma CopyNodeMakeConnection_with_kept rec src_input dst_input s s' :
  (∀ n s1 s2 d, rec n s1 = Done (s2, d) → kept_or_deleted s1 s2) →
  CopyNodeMakeConnection_with rec src_input dst_input s = Done s' →
  kept_or_deleted s s'.
Proof.
  intros Hrec. unfold CopyNodeMakeConnection_with.
  destruct (connected_output (graph s) src_input) as [out|].
  - destruct (rec (out_parentNode out) s) as [f|[s1 d]] eqn:Hr; [done|].
    simpl. destruct (connected_output (graph s1) src_input); [|done].
    intros [= <-]. eapply kept_or_deleted_trans; [by eapply Hrec|].
    apply kept_or_deleted_set_graph.
  - intros [= <-]. apply kept_or_deleted_refl.
Qed.

Lemma copy_connections_loop_kept rec srcs dsts s s' :
  (∀ n s1 s2 d, rec n s1 = Done (s2, d) → kept_or_deleted s1 s2) →
  copy_connections_loop rec srcs dsts s = Done s' →
  kept_or_deleted s s'.
Proof.
  intros Hrec. revert dsts s.
  induction srcs as [|src srcs IH]; intros dsts s; simpl.
  - intros [= <-]. apply kept_or_deleted_refl.
  - destruct dsts as [|dst dsts]; [done|].
    destruct (CopyNodeMakeConnection_with rec src dst s) as [f|s1] eqn:Hc;
      [done|].
    simpl. intros Hl. eapply kept_or_deleted_trans.
    + by eapply CopyNodeMakeConnection_with_kept.
    + by eapply IH.
Qed.

Lemma CopyNodeConnections_kept fuel src_node s s' d :
  CopyNodeConnections fuel src_node s = Done (s', d) → kept_or_deleted s s'.
Proof.
  revert src_node s s' d.
  induction fuel as [|fuel IH]; intros src_node s s' d; simpl; [done|].
  destruct (copy_map_ s !! src_node) as [dst|] eqn:Hsrc.
  - destruct (copy_connections_loop _ _ _ _) as [f|s3] eqn:Hl; [done|].
    simpl. intros [= <- <-].
    eapply kept_or_deleted_trans; [|by eapply copy_connections_loop_kept].
    apply kept_or_deleted_set_graph.
  - destruct (copy (graph s) src_node) as [w dst].
    destruct (copy_connections_loop _ _ _ _) as [f|s3] eqn:Hl; [done|].
    simpl. intros [= <- <-].
    eapply kept_or_deleted_trans; [|by eapply copy_connections_loop_kept].
    split; [done|]. simpl. intros n c Hn. left.
    rewrite lookup_insert_ne; [done|]. intros ->. congruence.
Qed.

Lemma foreach_input_kept f l s s' :
  (∀ i s1 s2, f i s1 = Done s2 → kept_or_deleted s1 s2) →
  foreach_input f l s = Done s' → kept_or_deleted s s'.
Proof.
  intros Hf. revert s. induction l as [|i rest IH]; intros s; simpl.
  - intros [= <-]. apply kept_or_deleted_refl.
  - destruct (f i s) as [e|s1] eqn:Hi; [done|]. simpl. intros Hr.
    eapply kept_or_deleted_trans; [by eapply Hf|by apply IH].
Qed.

(** One application of the flush takes a copy out of [copy_map_] only by
    deleting it. *)
Lemma CopyNodeInputValue_kept fuel input s s' :
  CopyNodeInputValue fuel input s = Done s' → kept_or_deleted s s'.
Proof.
  revert input s s'.
  induction fuel as [|fuel IH]; intros input s s'; simpl; [done|].
  destruct (copy_map_ s !! parentNode input) as [our_copy_node|]; [|done].
  set (our_copy := GetInputWithID our_copy_node (id input)).
  set (s1 := set_graph (CopyValues (graph s) input our_copy) s).
  destruct (is_connected _ input || is_connected _ our_copy).
  - destruct (remove_old_deps _ s1) as [e|s1a] eqn:Hr; [done|]. simpl.
    destruct (disconnect_edges fuel our_copy (graph s1a)) as [e|w] eqn:Hd;
      [done|]. simpl.
    destruct (CopyNodeMakeConnection fuel input our_copy (set_graph w s1a))
      as [e|s2] eqn:Hc; [done|]. simpl.
    assert (kept_or_deleted s s2) as Hs2.
    { eapply kept_or_deleted_trans;
        [|eapply CopyNodeMakeConnection_with_kept; [|exact Hc]].
      - eapply kept_or_deleted_trans; [|apply kept_or_deleted_set_graph].
        eapply kept_or_deleted_trans; [|by eapply remove_old_deps_kept].
        apply kept_or_deleted_set_graph.
      - intros n s3 s4 d. apply CopyNodeConnections_kept. }
    destruct (IsArray (graph s2) input).
    + intros Hf. eapply kept_or_deleted_trans; [exact Hs2|].
      eapply foreach_input_kept; [|exact Hf]. apply IH.
    + by intros [= <-].
  - simpl. destruct (IsArray _ input).
    + intros Hf. eapply kept_or_deleted_trans; [apply kept_or_deleted_set_graph|].
      eapply foreach_input_kept; [|exact Hf]. apply IH.
    + intros [= <-]. apply kept_or_deleted_set_graph.
Qed.

End CopyRemoves.

(** ** The dispatch loop *)

Section DispatchTheorems.
Context {World : Type} `{NodeGraph World}.
Implicit Types (s : RenderBackend World).

Lemma all_workers_available_idle ws :
  all_workers_available ws = true →
  length (filter (λ data, busy data = false) ws) = length ws.
Proof.
  induction ws as [|d ws IH]; [done|]. simpl.
  intros [Hd Hws]%andb_true_iff. apply negb_true_iff in Hd.
  rewrite filter_cons_True by done. simpl. by rewrite IH.
Qed.

(** The jobs started are the front of the queue, in order, one for each
    slot that was not busy as long as tickets remain. *)
Lemma dispatch_loop_fifo heap root ws queue ws' queue' jobs :
  dispatch_loop heap root ws queue = Done (ws', queue', jobs) →
  queue = map job_ticket jobs ++ queue'
  ∧ length jobs = min (length queue)
                      (length (filter (λ data, busy data = false) ws))
  ∧ ∀ j, j ∈ jobs →
      ∃ t, heap !! job_ticket j = Some t
           ∧ job_method j = GetType t ∧ job_payload j = GetTime t
           ∧ job_root j = root.
Proof.
  revert queue ws' queue' jobs.
  induction ws as [|d ws IH]; intros queue ws' queue' jobs; simpl.
  - intros [= <- <- <-]. split_and!; [done|simpl; lia|].
    intros j Hj. by apply elem_of_nil in Hj.
  - destruct (busy d) eqn:Hb.
    + destruct (dispatch_loop heap root ws queue) as [e|[[ws1 q1] js]] eqn:Hd;
        [done|].
      simpl. intros [= <- <- <-].
      rewrite filter_cons_False by (rewrite Hb; done). by apply IH in Hd.
    + rewrite filter_cons_True by done.
      destruct queue as [|ticket queue]; [done|].
      destruct (heap !! ticket) as [t|] eqn:Ht; [|done].
      assert (Hjob : ∃ t', heap !! job_ticket (make_job (worker d) ticket t root)
                             = Some t'
                ∧ job_method (make_job (worker d) ticket t root) = GetType t'
                ∧ job_payload (make_job (worker d) ticket t root) = GetTime t'
                ∧ job_root (make_job (worker d) ticket t root) = root).
      { exists t. unfold make_job. by destruct (GetType t). }
      assert (Hticket : job_ticket (make_job (worker d) ticket t root) = ticket).
      { unfold make_job. by destruct (GetType t). }
      case_bool_decide as Hnil.
      * intros [= <- <- <-]. subst queue. simpl. rewrite Hticket.
        split_and!; [done|done|].
        intros j ->%list_elem_of_singleton. exact Hjob.
      * destruct (dispatch_loop heap root ws queue) as [e|[[ws1 q1] js]] eqn:Hd;
          [done|].
        simpl. intros [= <- <- <-].
        apply IH in Hd as (Hq & Hlen & Hjs). simpl. rewrite Hticket.
        split_and!; [by f_equal|lia|].
        intros j [->|Hj]%elem_of_cons; [exact Hjob|by apply Hjs].
Qed.

Lemma idle_allocated n k :
  length (filter (λ data, busy data = false)
            (map (λ i, mkWorker (k + i) false) (seq 0 n))) = n.
Proof.
  rewrite all_workers_available_idle; [by rewrite length_map, length_seq|].
  unfold all_workers_available. apply forallb_forall.
  intros d [i [<- _]]%in_map_iff. done.
Qed.

(** C1, amended: the dispatch loop does not look at the cancellation flag.
    A call of [RunNextJob] that gets to the loop starts one job for each of
    the first tickets of the render queue, in queue order and as many as
    there are idle worker slots, whether or not a ticket was canceled while
    queued; the job is built from the ticket's type and payload alone.  The
    tickets behind them stay queued in their order.  Only the tickets that
    [ClearVideoQueue] cancels never reach a worker: it empties the queue,
    and [RunNextJob] then has nothing to start. *)
Theorem RunNextJob_fifo fuel s s' :
  RunNextJob fuel s = Done s' →
  (∃ jobs,
    pool_ s' = pool_ s ++ jobs
    ∧ render_queue_ s = map job_ticket jobs ++ render_queue_ s'
    ∧ length jobs =
        (if returns_early s then 0
         else min (length (render_queue_ s)) (idle_slots s))
    ∧ ∀ j, j ∈ jobs →
        ∃ t, ticket_heap s !! job_ticket j = Some t
             ∧ job_method j = GetType t ∧ job_payload j = GetTime t
             ∧ job_root j = copied_viewer_node_ s')
  ∧ render_queue_ (ClearVideoQueue s) = []
  ∧ RunNextJob fuel (ClearVideoQueue s) = Done (ClearVideoQueue s).
Proof.
  intros Hrun. split; [|done]. revert Hrun.
  unfold RunNextJob, returns_early.
  destruct (bool_decide (render_queue_ s = [])) eqn:Hempty.
  { intros [= <-]. exists []. rewrite app_nil_r. split_and!; try done.
    intros j Hj. by apply elem_of_nil in Hj. }
  destruct (negb (video_params_valid s) || negb (audio_params_valid s)).
  { intros [= <-]. exists []. rewrite app_nil_r. split_and!; try done.
    intros j Hj. by apply elem_of_nil in Hj. }
  simpl.
  set (pending := update_with_graph_ s
                  && negb (bool_decide (graph_update_queue_ s = []))).
  destruct (pending && negb (all_workers_available (workers_ s))) eqn:Hdefer.
  { intros [= <-]. exists []. rewrite app_nil_r. split_and!; try done.
    intros j Hj. by apply elem_of_nil in Hj. }
  destruct (if pending then ProcessUpdateQueue fuel s else Done s)
    as [e|s1] eqn:Hflush; [done|]. simpl.
  assert (Hout : outside_copy s1 = outside_copy s).
  { destruct pending; [by apply ProcessUpdateQueue_drains in Hflush as [_ ?]|].
    by injection Hflush as <-. }
  unfold outside_copy in Hout.
  injection Hout as Hheap _ _ _ _ Hqueue _ Hworkers Hpool Hmax _ _ _.
  set (s2 := if bool_decide (workers_ s1 = []) then allocate_workers s1 else s1).
  assert (Hs2 : ticket_heap s2 = ticket_heap s ∧ render_queue_ s2 = render_queue_ s
                ∧ pool_ s2 = pool_ s
                ∧ length (filter (λ data, busy data = false) (workers_ s2))
                  = idle_slots s).
  { unfold s2, idle_slots. rewrite <- Hworkers, <- Hmax.
    destruct (decide (workers_ s1 = [])) as [Hw|Hw].
    - rewrite !(bool_decide_eq_true_2 (workers_ s1 = [])) by done. simpl.
      split_and!; [done..|]. apply idle_allocated.
    - by rewrite !(bool_decide_eq_false_2 (workers_ s1 = [])) by done. }
  destruct Hs2 as (Hh2 & Hq2 & Hp2 & Hidle).
  destruct (dispatch_loop _ _ (workers_ s2) (render_queue_ s2))
    as [e|[[ws queue] jobs]] eqn:Hd; [done|].
  simpl. intros [= <-]. simpl.
  apply dispatch_loop_fifo in Hd as (Hq & Hlen & Hjobs).
  exists jobs. rewrite <- Hq2, <- Hp2, <- Hidle, <- Hh2.
  split_and!; done.
Qed.

(** C2: with update tracking on and updates pending, [RunNextJob] returns
    without flushing and without starting a job while any worker slot is
    busy; when every slot is idle (and there is something to render with
    valid parameters) it first runs [ProcessUpdateQueue], and a call that
    returns has then drained the pending-update queue.  [WorkerFinished]
    clears the sender's busy flag and calls [RunNextJob] again as long as a
    viewer is attached. *)
Theorem RunNextJob_flush_gate fuel s :
  update_with_graph_ s = true →
  graph_update_queue_ s ≠ [] →
  (if all_workers_available (workers_ s)
   then ∀ s', RunNextJob fuel s = Done s' →
          s' = s ∨ (graph_update_queue_ s' = []
                    ∧ ∃ s1, ProcessUpdateQueue fuel s = Done s1
                            ∧ graph s' = graph s1
                            ∧ copy_map_ s' = copy_map_ s1)
   else RunNextJob fuel s = Done s)
  ∧ ∀ sender,
      WorkerFinished fuel sender s =
        match viewer_node_ s with
        | Some _ =>
            RunNextJob fuel (set_workers (set_idle sender (workers_ s)) s)
        | None => Done (set_workers (set_idle sender (workers_ s)) s)
        end.
Proof.
  intros Hupd Hpending. split; [|done].
  unfold RunNextJob. rewrite Hupd.
  rewrite (bool_decide_eq_false_2 (graph_update_queue_ s = [])) by done.
  simpl.
  destruct (all_workers_available (workers_ s)); simpl.
  - intros s'. case_bool_decide; [intros [= <-]; by left|].
    destruct (negb (video_params_valid s) || negb (audio_params_valid s));
      [intros [= <-]; by left|].
    destruct (ProcessUpdateQueue fuel s) as [e|s1] eqn:Hflush; [done|]. simpl.
    destruct (dispatch_loop _ _ _ _) as [e|[[ws queue] jobs]]; [done|].
    simpl. intros [= <-]. right.
    apply ProcessUpdateQueue_drains in Hflush as Hdrain.
    destruct Hdrain as [Hq _]. split.
    + case_bool_decide; simpl; done.
    + exists s1. split; [done|]. case_bool_decide; simpl; done.
  - case_bool_decide; [done|].
    by destruct (negb (video_params_valid s) || negb (audio_params_valid s)).
Qed.

End DispatchTheorems.

(** ** The assertions *)

Section AssertionTheorems.
Context {World : Type} `{NodeGraph World}.
Implicit Types (s : RenderBackend World).

Lemma queue_has_copies_same s s' :
  graph_update_queue_ s' = graph_update_queue_ s →
  copy_map_ s' = copy_map_ s →
  queue_has_copies s → queue_has_copies s'.
Proof. unfold queue_has_copies. intros -> ->. done. Qed.

Lemma queue_has_copies_nil s :
  graph_update_queue_ s = [] → queue_has_copies s.
Proof. unfold queue_has_copies. intros -> q Hq. by apply elem_of_nil in Hq. Qed.

Lemma NodeGraphChanged_loop_sublist (w : World) source queue :
  fst (NodeGraphChanged_loop w source queue) `sublist_of` queue.
Proof.
  induction queue as [|q rest IH]; [done|].
  rewrite NodeGraphChanged_loop_cons.
  destruct (covered w source q); [done|].
  destruct (supersedes w source q); [by apply sublist_cons|].
  destruct (NodeGraphChanged_loop w source rest) as [rest' b].
  by apply sublist_skip.
Qed.

Lemma NodeGraphChanged_has_copies source s s' :
  NodeGraphChanged source s = Done s' →
  queue_has_copies s → queue_has_copies s'.
Proof.
  unfold NodeGraphChanged, queue_has_copies.
  destruct (copy_map_ s !! parentNode source) as [c|] eqn:Hmap.
  - pose proof (NodeGraphChanged_loop_sublist (graph s) source
                  (graph_update_queue_ s)) as Hsub.
    destruct (NodeGraphChanged_loop _ _ _) as [queue [|]]; simpl in Hsub;
      intros [= <-] Hinv q; simpl.
    + intros [Hq| ->%list_elem_of_singleton]%elem_of_app; [|by eauto].
      apply Hinv. by eapply elem_of_sublist.
    + intros Hq. apply Hinv. by eapply elem_of_sublist.
  - case_bool_decide; [done|]. by intros [= <-].
Qed.

Lemma RunNextJob_has_copies fuel s s' :
  RunNextJob fuel s = Done s' →
  queue_has_copies s → queue_has_copies s'.
Proof.
  unfold RunNextJob.
  case_bool_decide; [by intros [= <-]|].
  destruct (negb (video_params_valid s) || negb (audio_params_valid s));
    [by intros [= <-]|].
  simpl.
  destruct (_ && negb (all_workers_available (workers_ s)));
    [by intros [= <-]|].
  destruct (update_with_graph_ s
            && negb (bool_decide (graph_update_queue_ s = []))) eqn:Hp.
  - destruct (ProcessUpdateQueue fuel s) as [e|s1] eqn:Hflush; [done|]. simpl.
    destruct (dispatch_loop _ _ _ _) as [e|[[ws queue] jobs]]; [done|].
    simpl. intros [= <-] _. apply queue_has_copies_nil. simpl.
    apply ProcessUpdateQueue_drains in Hflush as [Hq _].
    by destruct (bool_decide (workers_ s1 = [])).
  - simpl.
    destruct (dispatch_loop _ _ _ _) as [e|[[ws queue] jobs]]; [done|].
    simpl. intros [= <-]. apply queue_has_copies_same; simpl;
      by destruct (bool_decide (workers_ s = [])).
Qed.

Lemma SetViewerNode_has_copies fuel v s s' :
  SetViewerNode fuel v s = Done s' →
  queue_has_copies s → queue_has_copies s'.
Proof.
  unfold SetViewerNode. case_bool_decide; [by intros [= <-]|].
  assert (Hattach : ∀ viewer s0 s1,
            attach fuel viewer s0 = Done s1 → queue_has_copies s1).
  { intros viewer s0 s1. unfold attach.
    destruct (copy (graph s0) viewer) as [w c].
    destruct (NodeGraphChanged (texture_input viewer) _) as [e|s2]; [done|].
    simpl. destruct (NodeGraphChanged (samples_input viewer) s2) as [e|s3];
      [done|].
    simpl. destruct (ProcessUpdateQueue fuel s3) as [e|s4] eqn:Hflush; [done|].
    simpl. apply ProcessUpdateQueue_drains in Hflush as [Hq _].
    destruct (update_with_graph_ s4); intros [= <-];
      by apply queue_has_copies_nil. }
  destruct v as [viewer|], (viewer_node_ s) as [old|]; simpl.
  - intros Ha _. by eapply Hattach.
  - intros Ha _. by eapply Hattach.
  - intros [= <-] _. by apply queue_has_copies_nil.
  - done.
Qed.

Lemma exec_has_copies fuel c s s' :
  exec fuel c s = Done s' → queue_has_copies s → queue_has_copies s'.
Proof.
  destruct c; simpl.
  - apply SetViewerNode_has_copies.
  - by intros [= <-].
  - intros [= <-]. unfold Hash, submit. by destruct (viewer_node_ s).
  - intros [= <-]. unfold RenderFrame, submit. by destruct (viewer_node_ s).
  - intros [= <-]. unfold RenderAudio, submit. by destruct (viewer_node_ s).
  - by intros [= <-].
  - by intros [= <-].
  - apply NodeGraphChanged_has_copies.
  - apply RunNextJob_has_copies.
  - unfold WorkerFinished. simpl. destruct (viewer_node_ s).
    + intros Hr Hinv. by eapply RunNextJob_has_copies.
    + by intros [= <-].
  - by intros [= <-].
  - by intros [= <-].
Qed.

Lemma run_has_copies fuel calls s s' :
  run fuel calls s = Done s' → queue_has_copies s → queue_has_copies s'.
Proof.
  revert s. induction calls as [|c rest IH]; intros s; simpl.
  - by intros [= <-].
  - destruct (exec fuel c s) as [e|s1] eqn:Hc; [done|]. simpl.
    intros Hr Hinv. apply (IH s1 Hr). by eapply exec_has_copies.
Qed.

(** X16: how far the assertions are guaranteed.  Under the notification
    contract the assertion of [NodeGraphChanged] cannot fail, and in every
    state the backend reaches each queued input belongs to a node that has
    a copy in [copy_map_]; so the assertion of [CopyNodeInputValue] holds
    when a flush starts, in particular for the input it applies first.
    After one application a queued input still has its node's copy unless
    that application handed the copy to [deleteLater], as it does with the
    exclusive dependencies of a reconnected input. *)
Theorem assertions_hold_when_flush_starts s :
  reachable s →
  queue_has_copies s
  ∧ (∀ i rest, graph_update_queue_ s = i :: rest →
               is_Some (copy_map_ s !! parentNode i))
  ∧ (∀ source, notification_contract source s →
       ∃ s', NodeGraphChanged source s = Done s' ∧ queue_has_copies s')
  ∧ ∀ fuel i s1, CopyNodeInputValue fuel i s = Done s1 →
      ∀ q, q ∈ graph_update_queue_ s →
        is_Some (copy_map_ s1 !! parentNode q)
        ∨ ∃ c, copy_map_ s !! parentNode q = Some c ∧ c ∈ deleted_later s1.
Proof.
  intros (w & update & threads & fuel & calls & Hrun).
  assert (Hinv : queue_has_copies s).
  { eapply run_has_copies; [exact Hrun|]. by apply queue_has_copies_nil. }
  split_and!; [done| | |].
  - intros i rest Hq. apply Hinv. rewrite Hq. by left.
  - intros source Hcontract.
    assert (∃ s', NodeGraphChanged source s = Done s') as [s' Hs'].
    { unfold NodeGraphChanged.
      destruct (copy_map_ s !! parentNode source) as [c|] eqn:Hmap.
      - destruct (NodeGraphChanged_loop _ _ _) as [queue [|]]; eauto.
      - destruct (Hcontract Hmap) as (q & Hq & _).
        rewrite bool_decide_eq_false_2; [eauto|].
        intros Hnil. rewrite Hnil in Hq. by apply elem_of_nil in Hq. }
    exists s'. split; [done|]. by eapply NodeGraphChanged_has_copies.
  - intros fuel' i s1 Hcopy q Hq.
    destruct (Hinv q Hq) as [c Hc].
    apply CopyNodeInputValue_kept in Hcopy as [_ Hkept].
    destruct (Hkept _ _ Hc) as [Hkeep|Hdel]; [left; by eauto|right; by eauto].
Qed.

End AssertionTheorems.

(** ** Splitting a range into chunks *)

Section Chunks.
Local Open Scope Q_scope.

Lemma floor_chunk (c : Z) (x : Q) :
  (0 < c)%Z →
  inject_Z (Qfloor (x / inject_Z c) * c) <= x
  ∧ x < inject_Z (Qfloor (x / inject_Z c) * c + c).
Proof.
  intros Hc.
  assert (Hcq : 0 < inject_Z c) by (rewrite (Zlt_Qlt 0 c) in Hc; exact Hc).
  pose proof (Qfloor_le (x / inject_Z c)) as Hlo.
  pose proof (Qlt_floor (x / inject_Z c)) as Hhi.
  rewrite inject_Z_plus, inject_Z_mult. rewrite inject_Z_plus in Hhi.
  set (f := inject_Z (Qfloor (x / inject_Z c))) in *.
  split.
  - apply Qnot_lt_le. intros Hlt.
    apply Qlt_shift_div_r in Hlt; [|done].
    apply (Qle_not_lt _ _ Hlo Hlt).
  - apply Qnot_le_lt. intros Hle.
    assert (Hle' : (f + inject_Z 1) * inject_Z c <= x).
    { ring_simplify. ring_simplify in Hle. lra. }
    apply Qle_shift_div_l in Hle'; [|done].
    apply (Qle_not_lt _ _ Hle' Hhi).
Qed.

Lemma ceiling_chunk (c : Z) (x : Q) :
  (0 < c)%Z →
  inject_Z (Qceiling (x / inject_Z c) * c - c) < x
  ∧ x <= inject_Z (Qceiling (x / inject_Z c) * c).
Proof.
  intros Hc.
  assert (Hcq : 0 < inject_Z c) by (rewrite (Zlt_Qlt 0 c) in Hc; exact Hc).
  pose proof (Qle_ceiling (x / inject_Z c)) as Hhi.
  pose proof (Qceiling_lt (x / inject_Z c)) as Hlo.
  unfold Z.sub in *.
  rewrite inject_Z_plus, inject_Z_mult, inject_Z_opp.
  rewrite inject_Z_plus, inject_Z_opp in Hlo.
  set (f := inject_Z (Qceiling (x / inject_Z c))) in *.
  split.
  - apply Qnot_le_lt. intros Hle.
    assert (Hle' : x <= (f + - inject_Z 1) * inject_Z c).
    { ring_simplify. ring_simplify in Hle. lra. }
    apply Qle_shift_div_r in Hle'; [|done].
    apply (Qle_not_lt _ _ Hle' Hlo).
  - apply Qnot_lt_le. intros Hlt.
    apply Qlt_shift_div_l in Hlt; [|done].
    apply (Qle_not_lt _ _ Hhi Hlt).
Qed.

Lemma int_of_small z : (- 2 ^ 31 <= z < 2 ^ 31)%Z → int_of z = Some z.
Proof.
  intros Hz. unfold int_of.
  destruct (Z.leb_spec (- 2 ^ 31) z); [|lia].
  destruct (Z.ltb_spec z (2 ^ 31)); [done|lia].
Qed.

Lemma round_half_even_comp (x y : Q) :
  x == y → round_half_even x = round_half_even y.
Proof.
  intros Hxy. unfold round_half_even.
  rewrite (Qfloor_comp _ _ Hxy).
  assert (Hc : (x - inject_Z (Qfloor y) ?= 1 # 2)
               = (y - inject_Z (Qfloor y) ?= 1 # 2)).
  { apply Qcompare_comp; [by rewrite Hxy|reflexivity]. }
  by rewrite Hc.
Qed.

Lemma binade_comp (x y : Q) : x == y → binade x = binade y.
Proof.
  intros Hxy. unfold binade.
  assert (Hb : Qle_bool 1 x = Qle_bool 1 y) by (by rewrite Hxy).
  rewrite Hb. destruct (Qle_bool 1 y).
  - by rewrite (Qfloor_comp _ _ Hxy).
  - assert (Hi : / x == / y) by (by rewrite Hxy).
    by rewrite (Qceiling_comp _ _ Hi).
Qed.

Lemma round_binary64_comp (x y : Q) :
  x == y → round_binary64 x = round_binary64 y.
Proof.
  intros Hxy. unfold round_binary64.
  assert (Hb : Qeq_bool x 0 = Qeq_bool y 0) by (by rewrite Hxy).
  rewrite Hb. destruct (Qeq_bool y 0); [done|].
  assert (Ha : Qabs x == Qabs y) by (by rewrite Hxy).
  rewrite (binade_comp _ _ Ha).
  apply Qred_complete.
  set (ulp := 2 ^ (binade (Qabs y) - 52)).
  assert (Hm : x / ulp == y / ulp) by (by rewrite Hxy).
  rewrite (round_half_even_comp _ _ Hm). reflexivity.
Qed.

Lemma double_div_comp (x y d : Q) : x == y → double_div x d = double_div y d.
Proof.
  intros Hxy. apply round_binary64_comp. by rewrite Hxy.
Qed.


Lemma SplitRange_loop_tiles (c : Z) (r : TimeRange) (b : Z) :
  (0 < c)%Z →
  (b * c < 2 ^ 31)%Z →
  inject_Z (b * c - c) < range_out r →
  range_out r <= inject_Z (b * c) →
  ∀ fuel (a : Z) (lo : Q),
    (Z.to_nat (b * c - a * c) <= fuel)%nat →
    (0 <= a * c)%Z →
    range_in r <= lo → lo <= range_out r →
    ((a < b)%Z → qMax (range_in r) (inject_Z (a * c)) == lo
                 ∧ lo < inject_Z (a * c + c)) →
    ((b <= a)%Z → lo == range_out r) →
    ∃ chunks, SplitRange_loop fuel c r (b * c) (a * c) = Some chunks
              ∧ tiles c lo (range_out r) chunks.
Proof.
  intros Hc Hmax Hend_lo Hend_hi.
  induction fuel as [|fuel IH]; intros a lo Hfuel Ha Hin Hout Hlt Hge.
  - assert (b <= a)%Z by nia. simpl.
    rewrite (proj2 (Z.ltb_ge _ _)) by nia.
    exists []. split; [done|]. simpl. by apply Hge.
  - simpl. destruct (Z.ltb_spec (a * c) (b * c)) as [Hi|Hi].
    + assert (Hab : (a < b)%Z) by nia.
      destruct (Hlt Hab) as [Hmaxlo Hlo].
      assert (Hnext : (a * c + c = (a + 1) * c)%Z) by lia.
      rewrite int_of_small by nia. simpl.
      rewrite Hnext.
      destruct (IH (a + 1)%Z (qMin (range_out r) (inject_Z ((a + 1) * c))))
        as (rest & Hrest & Htiles).
      * nia.
      * nia.
      * unfold qMin. destruct (Qlt_le_dec _ _); [lra|].
        rewrite <- Hnext. lra.
      * unfold qMin. destruct (Qlt_le_dec _ _); lra.
      * intros Hab'. rewrite <- Hnext in *.
        assert (inject_Z (a * c + c) <= inject_Z (b * c - c)).
        { rewrite <- Zle_Qle. nia. }
        unfold qMin, qMax.
        destruct (Qlt_le_dec (range_out r) _); [lra|].
        destruct (Qlt_le_dec (range_in r) _); [|lra].
        split; [reflexivity|].
        rewrite <- Zlt_Qlt. lia.
      * intros Hba. assert (inject_Z (b * c) <= inject_Z ((a + 1) * c)).
        { rewrite <- Zle_Qle. nia. }
        unfold qMin. destruct (Qlt_le_dec _ _); [reflexivity|lra].
      * rewrite Hrest. simpl. eexists. split; [reflexivity|].
        simpl. split_and!; try done.
        -- unfold qMin. destruct (Qlt_le_dec _ _); [lra|].
           rewrite <- Hnext. lra.
        -- unfold qMin. destruct (Qlt_le_dec _ _); lra.
        -- assert (inject_Z (a * c) <= qMax (range_in r) (inject_Z (a * c))).
           { unfold qMax. destruct (Qlt_le_dec _ _); lra. }
           assert (qMin (range_out r) (inject_Z ((a + 1) * c))
                   <= inject_Z (a * c) + inject_Z c).
           { rewrite <- inject_Z_plus, <- Hnext.
             unfold qMin. destruct (Qlt_le_dec _ _); lra. }
           lra.
        -- intros Hne. exists (a + 1)%Z.
           destruct (Z.ltb_spec ((a + 1) * c) (b * c)) as [Hi'|Hi'].
           ++ assert (inject_Z ((a + 1) * c) <= inject_Z (b * c - c)).
              { rewrite <- Zle_Qle. assert (a + 2 <= b)%Z by nia. nia. }
              unfold qMin. destruct (Qlt_le_dec _ _); [lra|done].
           ++ destruct fuel; simpl in Hrest;
                rewrite (proj2 (Z.ltb_ge _ _)) in Hrest by done;
                by injection Hrest as <-.
    + exists []. split; [done|]. simpl. apply Hge. nia.
Qed.

(** The two bounds of the range as [SplitRangeIntoChunks_with] computes them,
    when the two double quotients have the floor and the ceiling of the exact
    ones and the rounded-up end fits an [int]. *)
Lemma SplitRangeIntoChunks_with_bounds (toDouble : Q → Q) (c : Z)
    (r : TimeRange) :
  (1 <= c)%Z →
  0 <= range_in r →
  range_in r <= range_out r →
  (Qceiling (range_out r / inject_Z c) * c < 2 ^ 31)%Z →
  Qfloor (double_div (toDouble (range_in r)) (inject_Z c))
    = Qfloor (range_in r / inject_Z c) →
  Qceiling (double_div (toDouble (range_out r)) (inject_Z c))
    = Qceiling (range_out r / inject_Z c) →
  let a := Qfloor (range_in r / inject_Z c) in
  let b := Qceiling (range_out r / inject_Z c) in
  SplitRangeIntoChunks_with toDouble c r
    = SplitRange_loop (Z.to_nat (b * c - a * c)) c r (b * c) (a * c)
  ∧ (0 <= a * c)%Z ∧ (a * c <= b * c)%Z.
Proof.
  intros Hc Hin Hle Hout Hfl Hce a b. unfold SplitRangeIntoChunks_with.
  destruct (floor_chunk c (range_in r)) as [Hs_lo Hs_hi]; [lia|].
  destruct (ceiling_chunk c (range_out r)) as [He_lo He_hi]; [lia|].
  unfold qFloor, qCeil. rewrite Hfl, Hce. fold a b. fold a in Hs_lo, Hs_hi.
  fold b in He_lo, He_hi, Hout.
  assert (Ha0 : (0 <= a * c)%Z).
  { assert (0 < a * c + c)%Z
      by (rewrite Zlt_Qlt; change (inject_Z 0) with 0; lra).
    destruct (Z_lt_le_dec a 0); [|nia].
    assert ((a + 1) * c <= 0)%Z by nia. lia. }
  assert (Hab : (a * c <= b * c)%Z) by (rewrite Zle_Qle; lra).
  assert (Ha : (0 <= a)%Z) by nia.
  assert (Hb : (0 <= b)%Z) by nia.
  rewrite (int_of_small a) by nia. simpl.
  rewrite (int_of_small (a * c)) by nia. simpl.
  rewrite (int_of_small b) by nia. simpl.
  rewrite (int_of_small (b * c)) by nia. simpl.
  done.
Qed.

Lemma SplitRangeIntoChunks_with_tiles (toDouble : Q → Q) (c : Z)
    (r : TimeRange) :
  (1 <= c)%Z →
  0 <= range_in r →
  range_in r <= range_out r →
  (Qceiling (range_out r / inject_Z c) * c < 2 ^ 31)%Z →
  Qfloor (double_div (toDouble (range_in r)) (inject_Z c))
    = Qfloor (range_in r / inject_Z c) →
  Qceiling (double_div (toDouble (range_out r)) (inject_Z c))
    = Qceiling (range_out r / inject_Z c) →
  ∃ chunks, SplitRangeIntoChunks_with toDouble c r = Some chunks
            ∧ tiles c (range_in r) (range_out r) chunks.
Proof.
  intros Hc Hin Hle Hout Hfl Hce.
  destruct (SplitRangeIntoChunks_with_bounds toDouble c r Hc Hin Hle Hout Hfl Hce)
    as (-> & Ha0 & Hab).
  destruct (floor_chunk c (range_in r)) as [Hs_lo Hs_hi]; [lia|].
  destruct (ceiling_chunk c (range_out r)) as [He_lo He_hi]; [lia|].
  set (a := Qfloor (range_in r / inject_Z c)) in *.
  set (b := Qceiling (range_out r / inject_Z c)) in *.
  apply SplitRange_loop_tiles; try done; try lia; try lra.
  - intros _. unfold qMax. destruct (Qlt_le_dec _ _); [lra|].
    split; [reflexivity|done].
  - intros Hba. assert (inject_Z (b * c) <= inject_Z (a * c)).
    { rewrite <- Zle_Qle. nia. }
    lra.
Qed.

(** C9, amended: whenever [toDouble] converts 0 and 5 exactly, the range from
    0 to 5 is split into the chunks from 0 to 2, 2 to 4 and 4 to 5, in that
    order.  For every chunk size of at least 1 and every range with
    [0 <= in <= out], the chunks are consecutive, aligned to the chunk size
    except at the ends of the range, clipped to the range, and cover exactly
    the range, provided that [out] rounded up to a multiple of the chunk size
    fits an [int] and that the rounding of the double arithmetic changes
    neither the floor of [in / chunk_size] nor the ceiling of
    [out / chunk_size]. *)
Theorem SplitRangeIntoChunks_tiles (toDouble : Q → Q) :
  (toDouble 0 == 0 → toDouble 5 == 5 →
   SplitRangeIntoChunks toDouble (mkRange 0 5)
     = Some [mkRange 0 2; mkRange 2 4; mkRange 4 5])
  ∧ ∀ (c : Z) (r : TimeRange),
      (1 <= c)%Z →
      0 <= range_in r →
      range_in r <= range_out r →
      (Qceiling (range_out r / inject_Z c) * c < 2 ^ 31)%Z →
      Qfloor (double_div (toDouble (range_in r)) (inject_Z c))
        = Qfloor (range_in r / inject_Z c) →
      Qceiling (double_div (toDouble (range_out r)) (inject_Z c))
        = Qceiling (range_out r / inject_Z c) →
      ∃ chunks, SplitRangeIntoChunks_with toDouble c r = Some chunks
                ∧ tiles c (range_in r) (range_out r) chunks.
Proof.
  split; [|apply SplitRangeIntoChunks_with_tiles].
  intros H0 H5. unfold SplitRangeIntoChunks, SplitRangeIntoChunks_with.
  simpl range_in. simpl range_out.
  rewrite (double_div_comp _ _ _ H0), (double_div_comp _ _ _ H5).
  vm_compute. reflexivity.
Qed.

(** With the conversion to the nearest double: the range from 0 to 5, and
    the range from 1/3 to 22/3 in chunks of 3, neither bound of which is a
    double. *)
Lemma SplitRangeIntoChunks_tiles_witness :
  SplitRangeIntoChunks round_binary64 (mkRange 0 5)
    = Some [mkRange 0 2; mkRange 2 4; mkRange 4 5]
  ∧ ∃ chunks,
      SplitRangeIntoChunks_with round_binary64 3 (mkRange (1 # 3) (22 # 3))
        = Some chunks
      ∧ tiles 3 (1 # 3) (22 # 3) chunks.
Proof.
  split.
  - apply (proj1 (SplitRangeIntoChunks_tiles round_binary64));
      vm_compute; reflexivity.
  - apply (proj2 (SplitRangeIntoChunks_tiles round_binary64) 3%Z
             (mkRange (1 # 3) (22 # 3))).
    + lia.
    + simpl. lra.
    + simpl. lra.
    + vm_compute. reflexivity.
    + vm_compute. reflexivity.
    + vm_compute. reflexivity.
Defined.

(** A range that ends at [4 + 2^-60], with the conversion to the nearest
    double: the end converts to [4.0], the end time is 4, and the two chunks
    from 0 to 2 and from 2 to 4 stop short of the end of the range.  A range
    that ends at [2^31]: the end time does not fit an [int]. *)
Lemma SplitRangeIntoChunks_not_tiled :
  ¬ (∀ r : TimeRange,
       0 <= range_in r →
       range_in r <= range_out r →
       ∃ chunks, SplitRangeIntoChunks round_binary64 r = Some chunks
                 ∧ tiles chunk_size (range_in r) (range_out r) chunks)
  ∧ SplitRangeIntoChunks round_binary64 (mkRange 0 just_above_4)
    = Some [mkRange 0 2; mkRange 2 4]
  ∧ SplitRangeIntoChunks round_binary64 (mkRange 0 (inject_Z (2 ^ 31))) = None.
Proof.
  split; [|split; vm_compute; reflexivity].
  intros Hclaim.
  destruct (Hclaim (mkRange 0 just_above_4)) as (chunks & Hsplit & Htiles).
  - vm_compute. discriminate.
  - vm_compute. discriminate.
  - vm_compute in Hsplit. injection Hsplit as <-.
    vm_compute in Htiles. destruct Htiles as (_ & _ & _ & _ & H). discriminate H.
Qed.

End Chunks.

(** ** The queue on concrete graphs *)

Section QueueExamples.
Import Concrete Examples.



(** After the calls of [q_arr_pending] the queue is [q; arr]; the
    notification for the array member [arr_0] then removes [q] and returns at
    [arr]: the queue is not what it was. *)
Lemma NodeGraphChanged_member_not_noop :
  ¬ (∀ (s s' : RenderBackend Graph) (source queued : NodeInput),
       queued ∈ graph_update_queue_ s →
       IsArray (graph s) queued = true →
       source ∈ sub_params (graph s) queued →
       NodeGraphChanged source s = Done s' →
       graph_update_queue_ s' = graph_update_queue_ s).
Proof.
  intros Hclaim.
  assert (Hq : graph_update_queue_ q_arr_pending = [q; arr])
    by (vm_compute; reflexivity).
  assert (Hm : sub_params (graph q_arr_pending) arr = [arr_0])
    by (vm_compute; reflexivity).
  specialize (Hclaim q_arr_pending
                (state_after 20 [CallNodeGraphChanged arr_0] q_arr_pending)
                arr_0 arr).
  rewrite Hq, Hm in Hclaim.
  assert (Hfalse : [arr] = [q; arr]); [|discriminate Hfalse].
  etrans; [|apply Hclaim].
  - vm_compute. reflexivity.
  - right. left.
  - vm_compute. reflexivity.
  - left.
  - vm_compute. reflexivity.
Qed.

Lemma NodeGraphChanged_covered_witness :
  ∃ pre c post,
    graph_update_queue_ arr_pending = pre ++ c :: post
    ∧ (∀ y, y ∈ pre → covered (graph arr_pending) arr_0 y = false)
    ∧ covered (graph arr_pending) arr_0 c = true
    ∧ NodeGraphChanged arr_0 arr_pending =
        Done (set_graph_update_queue
                (if bool_decide
                      (is_Some (copy_map_ arr_pending !! parentNode arr_0))
                 then filter (λ y, supersedes (graph arr_pending) arr_0 y = false)
                        pre ++ c :: post
                 else graph_update_queue_ arr_pending) arr_pending)
    ∧ ((∀ y, y ∈ pre → supersedes (graph arr_pending) arr_0 y = false) →
       NodeGraphChanged arr_0 arr_pending = Done arr_pending).
Proof.
  apply (NodeGraphChanged_covered arr_0 arr_pending).
  exists arr. split.
  - assert (graph_update_queue_ arr_pending = [arr]) as ->
      by (vm_compute; reflexivity).
    left.
  - vm_compute. reflexivity.
Defined.

End QueueExamples.

(** ** Tickets and dispatch on concrete graphs *)

Section DispatchExamples.
Import Concrete Examples.

(** The frame ticket 0 is canceled while it is the only entry of the render
    queue; [RunNextJob] still hands it to a worker. *)
Lemma RunNextJob_dispatches_canceled :
  ¬ (∀ fuel (s s' : RenderBackend Graph) (t : RenderTicketPtr) (tk : RenderTicket),
       t ∈ render_queue_ s →
       ticket_heap s !! t = Some tk →
       IsCancelled tk = true →
       RunNextJob fuel s = Done s' →
       ∀ j, j ∈ pool_ s' → j ∉ pool_ s → job_ticket j ≠ t).
Proof.
  intros Hclaim.
  apply (Hclaim 20 frame_canceled
           (state_after 20 [CallRunNextJob] frame_canceled)
           0 (mkTicket kTypeVideo (TimePoint 1) true)
           ltac:(vm_compute; left) ltac:(vm_compute; reflexivity)
           ltac:(reflexivity) ltac:(vm_compute; reflexivity)
           (mkJob 0 kTypeVideo 0 (Some 2) (TimePoint 1))).
  - vm_compute. left.
  - vm_compute. apply not_elem_of_nil.
  - reflexivity.
Qed.

(** The canceled ticket 0 is at the front of the render queue and two worker
    slots are free. *)
Lemma RunNextJob_fifo_witness :
  ticket_heap frame_canceled !! 0 = Some (mkTicket kTypeVideo (TimePoint 1) true)
  ∧ ∃ jobs,
    pool_ (state_after 20 [CallRunNextJob] frame_canceled)
      = pool_ frame_canceled ++ jobs
    ∧ render_queue_ frame_canceled
      = map job_ticket jobs
        ++ render_queue_ (state_after 20 [CallRunNextJob] frame_canceled)
    ∧ length jobs =
        (if returns_early frame_canceled then 0
         else min (length (render_queue_ frame_canceled))
                  (idle_slots frame_canceled))
    ∧ ∀ j, j ∈ jobs →
        ∃ t, ticket_heap frame_canceled !! job_ticket j = Some t
             ∧ job_method j = GetType t ∧ job_payload j = GetTime t
             ∧ job_root j
               = copied_viewer_node_
                   (state_after 20 [CallRunNextJob] frame_canceled).
Proof.
  split; [vm_compute; reflexivity|].
  apply (RunNextJob_fifo 20 frame_canceled). vm_compute. reflexivity.
Defined.

Lemma RunNextJob_flush_gate_witness :
  RunNextJob 20 busy_pending = Done busy_pending.
Proof.
  assert (Hupd : update_with_graph_ busy_pending = true)
    by (vm_compute; reflexivity).
  assert (Hq : graph_update_queue_ busy_pending ≠ []).
  { assert (graph_update_queue_ busy_pending = [p]) as ->
      by (vm_compute; reflexivity).
    discriminate. }
  destruct (RunNextJob_flush_gate 20 busy_pending Hupd Hq) as [Hgate _].
  assert (Hbusy : all_workers_available (workers_ busy_pending) = false)
    by (vm_compute; reflexivity).
  rewrite Hbusy in Hgate. exact Hgate.
Defined.

(** With a viewer attached and no valid output parameters, [Hash] returns a
    ticket and the render queue grows. *)
Lemma Hash_with_invalid_params :
  ¬ (∀ (s : RenderBackend Graph) (times : list Q),
       negb (video_params_valid s) || negb (audio_params_valid s) = true →
       fst (Hash times s) = None
       ∧ render_queue_ (snd (Hash times s)) = render_queue_ s).
Proof.
  intros Hclaim.
  destruct (Hclaim chain_attached [1%Q] ltac:(vm_compute; reflexivity))
    as [Hnull _].
  vm_compute in Hnull. discriminate Hnull.
Qed.

Lemma submissions_ignore_params_witness :
  submitted kTypeVideo (TimePoint 1) chain_attached
    (submit kTypeVideo (TimePoint 1) chain_attached)
  ∧ RunNextJob 20 (snd (submit kTypeVideo (TimePoint 1) chain_attached))
    = Done (snd (submit kTypeVideo (TimePoint 1) chain_attached)).
Proof.
  apply (submissions_ignore_params kTypeVideo (TimePoint 1) 20 chain_attached).
  vm_compute. reflexivity.
Defined.

Lemma SetViewerNode_detach_witness :
  ∃ s', SetViewerNode 20 None frame_queued = Done s'
    ∧ viewer_node_ s' = None
    ∧ render_queue_ s' = []
    ∧ (∀ t, t ∈ render_queue_ frame_queued →
            ticket_heap s' !! t = Cancel <$> (ticket_heap frame_queued !! t))
    ∧ (∀ n c, copy_map_ frame_queued !! n = Some c → c ∈ deleted_later s')
    ∧ copy_map_ s' = ∅
    ∧ copied_viewer_node_ s' = None
    ∧ graph_update_queue_ s' = []
    ∧ (viewer ∉ graph_changed_from s')
    ∧ pool_ s' = [].
Proof.
  apply (SetViewerNode_detach 20 frame_queued viewer).
  vm_compute. reflexivity.
Defined.

End DispatchExamples.

(** ** The assertions on concrete graphs *)

Section AssertionExamples.
Import Concrete Examples.

(** C8: a run that meets the notification contract and fails the
    assertion of [CopyNodeInputValue].  In [unwire_then_edit] every
    notification comes for an input whose node has a copy, and both inputs
    are queued.  The flush started by [RunNextJob] applies the viewer's
    input first: the copy of node 1 is an exclusive dependency of the copied
    input and is removed from [copy_map_], and nothing is copied back
    because the live input is no longer wired.  It then applies [p], whose
    node has no copy any more. *)
Theorem flush_assertion_fails_after_unwire :
  respects_contract 20 unwire_then_edit (initial chain_graph true 2)
  ∧ run 20 unwire_then_edit (initial chain_graph true 2) = Done unwired_pending
  ∧ graph_update_queue_ unwired_pending = [tex_in; p]
  ∧ queue_has_copies unwired_pending
  ∧ RunNextJob 20 unwired_pending = Abort AssertFailed.
Proof.
  split_and!.
  - vm_compute. repeat split; intros Hnone; discriminate Hnone.
  - vm_compute. reflexivity.
  - vm_compute. reflexivity.
  - intros y Hy.
    assert (Hq : graph_update_queue_ unwired_pending = [tex_in; p])
      by (vm_compute; reflexivity).
    rewrite Hq in Hy.
    apply elem_of_cons in Hy as [->|Hy];
      [|apply list_elem_of_singleton in Hy as ->];
      vm_compute; eauto.
  - vm_compute. reflexivity.
Qed.

Lemma assertions_hold_when_flush_starts_witness :
  queue_has_copies q_pending
  ∧ (∀ i rest, graph_update_queue_ q_pending = i :: rest →
               is_Some (copy_map_ q_pending !! parentNode i))
  ∧ (∀ source, notification_contract source q_pending →
       ∃ s', NodeGraphChanged source q_pending = Done s' ∧ queue_has_copies s')
  ∧ ∀ fuel i s1, CopyNodeInputValue fuel i q_pending = Done s1 →
      ∀ y, y ∈ graph_update_queue_ q_pending →
        is_Some (copy_map_ s1 !! parentNode y)
        ∨ ∃ c, copy_map_ q_pending !! parentNode y = Some c
               ∧ c ∈ deleted_later s1.
Proof.
  apply (assertions_hold_when_flush_starts q_pending).
  exists array_graph, true, 2, 20, array_attach.
  vm_compute. reflexivity.
Defined.

End AssertionExamples.

(** * Further properties of the backend *)

(** ** [NodeGraphChanged] *)

Section EnqueueOutcome.
Context {World : Type} `{NodeGraph World}.
Implicit Types (w : World) (s : RenderBackend World) (source : NodeInput).

Lemma filter_not_superseded_idemp w source (queue : list NodeInput) :
  filter (λ x, supersedes w source x = false)
    (filter (λ x, supersedes w source x = false) queue)
  = filter (λ x, supersedes w source x = false) queue.
Proof.
  induction queue as [|y queue IH]; [done|].
  destruct (supersedes w source y) eqn:Hs.
  - by rewrite (filter_cons_False _ y) by (rewrite Hs; done).
  - rewrite (filter_cons_True _ y) by done.
    rewrite filter_cons_True by done. by rewrite IH.
Qed.

Lemma covered_self w source : covered w source source = true.
Proof. unfold covered. by rewrite bool_decide_eq_true_2. Qed.

(** X1: [NodeGraphChanged] fails, on its assertion, exactly when the node of
    the input has no copy and nothing is pending: it fails in that case, and
    in every other case it returns.  A call that returns has
    changed nothing but [graph_update_queue_]: the old entries that remain
    keep their order, and the only entry that can be new is the input
    itself, at the back, so the queue grows by at most one. *)
Theorem NodeGraphChanged_outcome source s :
  (NodeGraphChanged source s = Abort AssertFailed
   ↔ copy_map_ s !! parentNode source = None ∧ graph_update_queue_ s = [])
  ∧ match NodeGraphChanged source s with
    | inl f =>
        f = AssertFailed
        ∧ copy_map_ s !! parentNode source = None
        ∧ graph_update_queue_ s = []
    | inr s' =>
        (is_Some (copy_map_ s !! parentNode source)
         ∨ graph_update_queue_ s ≠ [])
        ∧ ∃ kept,
            kept `sublist_of` graph_update_queue_ s
            ∧ (s' = set_graph_update_queue kept s
               ∨ s' = set_graph_update_queue (kept ++ [source]) s
                 ∧ is_Some (copy_map_ s !! parentNode source))
            ∧ length (graph_update_queue_ s')
              ≤ S (length (graph_update_queue_ s))
    end.
Proof.
  unfold NodeGraphChanged.
  destruct (copy_map_ s !! parentNode source) as [c|] eqn:Hmap.
  - pose proof (NodeGraphChanged_loop_sublist (graph s) source
                  (graph_update_queue_ s)) as Hsub.
    destruct (NodeGraphChanged_loop _ _ _) as [queue [|]]; simpl in Hsub;
      (split; [split; [done|by intros [? ?]]|]);
      (split; [left; by eauto|]);
      exists queue; (split; [done|]); simpl.
    + split; [right; by eauto|].
      rewrite length_app. simpl. apply sublist_length in Hsub. lia.
    + split; [by left|]. apply sublist_length in Hsub. lia.
  - destruct (bool_decide_reflect (graph_update_queue_ s = [])) as [Hnil|Hnil].
    + split; [done|done].
    + split; [split; [done|by intros [_ ?]]|].
      split; [by right|].
      exists (graph_update_queue_ s). split; [done|].
      split; [left; by rewrite set_graph_update_queue_id|lia].
Qed.

(** X2: notifying the same input twice in a row is the same as notifying it
    once: the second call finds the input queued, or covered by the entry
    that covered it before, and leaves the backend as it is. *)
Theorem NodeGraphChanged_twice source s s' :
  NodeGraphChanged source s = Done s' →
  NodeGraphChanged source s' = Done s'.
Proof.
  unfold NodeGraphChanged.
  destruct (copy_map_ s !! parentNode source) as [c|] eqn:Hmap.
  - destruct (covered_cases (graph s) source (graph_update_queue_ s))
      as [Hun|Hcov].
    + rewrite NodeGraphChanged_loop_uncovered by done.
      intros [= <-]. simpl. rewrite Hmap.
      rewrite NodeGraphChanged_loop_covered.
      * by rewrite filter_not_superseded_idemp.
      * intros y Hy. apply list_elem_of_filter in Hy as [_ Hy]. by apply Hun.
      * apply covered_self.
    + destruct (first_covered _ _ _ Hcov) as (pre & c0 & post & Hq & Hpre & Hc).
      rewrite Hq, NodeGraphChanged_loop_covered by done.
      intros [= <-]. simpl. rewrite Hmap.
      rewrite NodeGraphChanged_loop_covered.
      * by rewrite filter_not_superseded_idemp.
      * intros y Hy. apply list_elem_of_filter in Hy as [_ Hy]. by apply Hpre.
      * done.
  - case_bool_decide as Hnil; [done|]. intros [= <-]. rewrite Hmap.
    by rewrite bool_decide_eq_false_2.
Qed.

End EnqueueOutcome.

(** ** Tickets *)

Section TicketOutcome.
Context {World : Type} `{NodeGraph World}.
Implicit Types (s : RenderBackend World).

Lemma cancel_all_dom queue (heap : gmap RenderTicketPtr RenderTicket) :
  dom (cancel_all queue heap) = dom heap.
Proof.
  apply set_eq. intros t. rewrite !elem_of_dom, cancel_all_lookup.
  case_bool_decide; [|done]. by rewrite fmap_is_Some.
Qed.

(** X3: [ClearVideoQueue] empties the render queue and cancels the tickets
    that were in it, keeping their type and payload; every other ticket,
    the jobs already handed to the pool and the worker slots are left
    alone, and no ticket disappears from the heap.  Clearing twice is
    clearing once. *)
Theorem ClearVideoQueue_cancels_queued s :
  render_queue_ (ClearVideoQueue s) = []
  ∧ (∀ t, ticket_heap (ClearVideoQueue s) !! t =
          if bool_decide (t ∈ render_queue_ s)
          then Cancel <$> (ticket_heap s !! t)
          else ticket_heap s !! t)
  ∧ dom (ticket_heap (ClearVideoQueue s)) = dom (ticket_heap s)
  ∧ pool_ (ClearVideoQueue s) = pool_ s
  ∧ workers_ (ClearVideoQueue s) = workers_ s
  ∧ ClearVideoQueue (ClearVideoQueue s) = ClearVideoQueue s.
Proof.
  split_and!; try done.
  - intros t. apply cancel_all_lookup.
  - apply cancel_all_dom.
Qed.

(** X4: with a viewer attached, two submissions in a row return two
    different tickets, queued behind the tickets already waiting in the
    order of submission, and no ticket that existed before is changed. *)
Theorem submissions_distinct type1 time1 type2 time2 s viewer :
  viewer_node_ s = Some viewer →
  ∃ t1 t2,
    fst (submit type1 time1 s) = Some t1
    ∧ fst (submit type2 time2 (snd (submit type1 time1 s))) = Some t2
    ∧ t1 ≠ t2
    ∧ render_queue_ (snd (submit type2 time2 (snd (submit type1 time1 s))))
      = render_queue_ s ++ [t1; t2]
    ∧ ∀ t tk, ticket_heap s !! t = Some tk →
        ticket_heap (snd (submit type2 time2 (snd (submit type1 time1 s)))) !! t
        = Some tk.
Proof.
  intros Hv. unfold submit. rewrite Hv. simpl. rewrite Hv. simpl.
  set (t1 := fresh (dom (ticket_heap s))).
  set (t2 := fresh (dom (<[t1 := mkTicket type1 time1 false]> (ticket_heap s)))).
  assert (Ht1 : t1 ∉ dom (ticket_heap s)) by apply is_fresh.
  assert (Ht2 : t2 ∉ dom (<[t1 := mkTicket type1 time1 false]> (ticket_heap s)))
    by apply is_fresh.
  assert (Hne : t1 ≠ t2).
  { intros Heq. apply Ht2. rewrite <- Heq. set_solver. }
  exists t1, t2. split_and!; try done.
  - by rewrite <- app_assoc.
  - intros t tk Ht.
    assert (t ∈ dom (ticket_heap s)) by (apply elem_of_dom; eauto).
    rewrite lookup_insert_ne.
    + rewrite lookup_insert_ne; [done|]. by intros <-.
    + intros <-. apply Ht2. set_solver.
Qed.

End TicketOutcome.

(** ** Worker slots *)

Section WorkerSlots.
Context {World : Type} `{NodeGraph World}.
Implicit Types (s : RenderBackend World) (ws : list WorkerData).

Lemma make_job_worker w ticket t root :
  job_worker (make_job w ticket t root) = w.
Proof. unfold make_job. by destruct (GetType t). Qed.

Lemma dispatch_loop_workers heap root ws queue ws' queue' jobs :
  dispatch_loop heap root ws queue = Done (ws', queue', jobs) →
  map worker ws' = map worker ws
  ∧ (∀ i d, ws !! i = Some d → busy d = true → ws' !! i = Some d)
  ∧ length (filter (λ d, busy d = true) ws')
    = length (filter (λ d, busy d = true) ws) + length jobs
  ∧ (∀ j, j ∈ jobs →
       mkWorker (job_worker j) false ∈ ws ∧ mkWorker (job_worker j) true ∈ ws')
  ∧ map job_worker jobs `sublist_of` map worker ws.
Proof.
  revert queue ws' queue' jobs.
  induction ws as [|d ws IH]; intros queue ws' queue' jobs; simpl.
  - intros [= <- <- <-]. split_and!; try done.
    intros j Hj. by apply elem_of_nil in Hj.
  - destruct (busy d) eqn:Hb.
    + destruct (dispatch_loop heap root ws queue) as [e|[[ws1 q1] js]] eqn:Hd;
        [done|].
      simpl. intros [= <- <- <-].
      apply IH in Hd as (Hids & Hbusy & Hcount & Hjobs & Hsub).
      split_and!.
      * simpl. by rewrite Hids.
      * intros [|i] d' Hi Hd'; simpl in *; [done|by apply Hbusy].
      * rewrite !filter_cons_True by done. simpl. by rewrite Hcount.
      * intros j Hj. destruct (Hjobs j Hj). split; by right.
      * by apply sublist_cons.
    + destruct queue as [|ticket queue]; [done|].
      destruct (heap !! ticket) as [t|] eqn:Ht; [|done].
      assert (Hd_eq : d = mkWorker (worker d) false)
        by (destruct d; simpl in *; by subst).
      case_bool_decide as Hnil.
      * intros [= <- <- <-]. split_and!.
        -- done.
        -- intros [|i] d' Hi Hd'; simpl in *; [congruence|done].
        -- rewrite filter_cons_True by done.
           rewrite filter_cons_False by (rewrite Hb; done). simpl. lia.
        -- intros j ->%list_elem_of_singleton. rewrite make_job_worker.
           split; [rewrite <- Hd_eq|]; by left.
        -- simpl. rewrite make_job_worker. apply sublist_skip, sublist_nil_l.
      * destruct (dispatch_loop heap root ws queue) as [e|[[ws1 q1] js]] eqn:Hd;
          [done|].
        simpl. intros [= <- <- <-].
        apply IH in Hd as (Hids & Hbusy & Hcount & Hjobs & Hsub).
        split_and!.
        -- simpl. by rewrite Hids.
        -- intros [|i] d' Hi Hd'; simpl in *; [congruence|by apply Hbusy].
        -- rewrite filter_cons_True by done.
           rewrite filter_cons_False by (rewrite Hb; done).
           simpl. rewrite Hcount. lia.
        -- intros j [->|Hj]%elem_of_cons.
           ++ rewrite make_job_worker. split; [rewrite <- Hd_eq|]; by left.
           ++ destruct (Hjobs j Hj). split; by right.
        -- simpl. rewrite make_job_worker. by apply sublist_skip.
Qed.

(** A call of [RunNextJob] that returns either returned early, or ran the
    dispatch loop on the state the flush and the allocation left. *)
Lemma RunNextJob_shape fuel s s' :
  RunNextJob fuel s = Done s' →
  (returns_early s = true ∧ s' = s)
  ∨ (returns_early s = false
     ∧ ∃ s1 ws queue jobs,
         outside_copy s1 = outside_copy s
         ∧ dispatch_loop (ticket_heap s) (copied_viewer_node_ s)
             (if bool_decide (workers_ s = [])
              then workers_ (allocate_workers s1) else workers_ s)
             (render_queue_ s)
           = Done (ws, queue, jobs)
         ∧ s' = set_pool (pool_ s ++ jobs)
                  (set_render_queue queue
                     (set_workers ws
                        (if bool_decide (workers_ s = [])
                         then allocate_workers s1 else s1)))).
Proof.
  unfold RunNextJob, returns_early.
  destruct (bool_decide (render_queue_ s = [])); [intros [= <-]; by left|].
  destruct (negb (video_params_valid s) || negb (audio_params_valid s));
    [intros [= <-]; by left|].
  simpl.
  set (pending := update_with_graph_ s
                  && negb (bool_decide (graph_update_queue_ s = []))).
  destruct (pending && negb (all_workers_available (workers_ s)));
    [intros [= <-]; by left|].
  destruct (if pending then ProcessUpdateQueue fuel s else Done s)
    as [e|s1] eqn:Hflush; [done|]. simpl.
  assert (Hout : outside_copy s1 = outside_copy s).
  { destruct pending; [by apply ProcessUpdateQueue_drains in Hflush as [_ ?]|].
    by injection Hflush as <-. }
  pose proof Hout as Hout'. unfold outside_copy in Hout'.
  injection Hout' as Hheap _ _ _ _ Hqueue Hroot Hworkers Hpool Hmax _ _ _.
  rewrite Hworkers.
  destruct (dispatch_loop _ _ _ _) as [e|[[ws queue] jobs]] eqn:Hd; [done|].
  simpl. intros [= <-]. right. split; [done|].
  exists s1, ws, queue, jobs. split; [done|].
  destruct (bool_decide (workers_ s = [])); simpl in *;
    rewrite ?Hheap, ?Hqueue, ?Hroot, ?Hpool, ?Hworkers in *; by split.
Qed.

Lemma allocated_ids n k :
  map worker (map (λ i, mkWorker (k + i) false) (seq 0 n))
  = map (λ i, k + i) (seq 0 n).
Proof. rewrite map_map. done. Qed.

Lemma allocated_ids_NoDup n k : NoDup (map (λ i, k + i) (seq 0 n)).
Proof.
  apply NoDup_fmap_2; [|apply NoDup_seq]. intros i j. lia.
Qed.

End WorkerSlots.

Section WorkerTheorems.
Context {World : Type} `{NodeGraph World}.
Implicit Types (s : RenderBackend World) (ws : list WorkerData).

Lemma allocated_none_busy n k :
  filter (λ d, busy d = true) (map (λ i, mkWorker (k + i) false) (seq 0 n)) = [].
Proof.
  induction (seq 0 n) as [|i l IH]; [done|]. simpl.
  by rewrite filter_cons_False by done.
Qed.

(** X5: a call of [RunNextJob] that returns never touches the tickets or the
    viewer and never clears a busy flag.  The worker slots are created on
    the first call that gets to the dispatch loop, one per thread of the
    pool, and are the same workers ever after; the number of busy slots
    grows by exactly the number of jobs handed to the pool. *)
Theorem RunNextJob_slots fuel s s' :
  RunNextJob fuel s = Done s' →
  ticket_heap s' = ticket_heap s
  ∧ viewer_node_ s' = viewer_node_ s
  ∧ map worker (workers_ s')
    = (if bool_decide (workers_ s = []) && negb (returns_early s)
       then map (λ i, next_worker s + i) (seq 0 (maxThreadCount s))
       else map worker (workers_ s))
  ∧ (∀ i d, workers_ s !! i = Some d → busy d = true →
            workers_ s' !! i = Some d)
  ∧ length (filter (λ d, busy d = true) (workers_ s')) + length (pool_ s)
    = length (filter (λ d, busy d = true) (workers_ s)) + length (pool_ s').
Proof.
  intros Hrun.
  destruct (RunNextJob_shape _ _ _ Hrun)
    as [[Hearly ->]|(Hearly & s1 & ws & queue & jobs & Hout & Hd & ->)].
  - rewrite Hearly, andb_false_r. done.
  - rewrite Hearly, andb_true_r.
    unfold outside_copy in Hout.
    injection Hout as Hheap Hv _ _ _ _ _ Hworkers _ Hmax _ _ Hnext.
    apply dispatch_loop_workers in Hd as (Hids & Hbusy & Hcount & _ & _).
    destruct (bool_decide_reflect (workers_ s = [])) as [Hnil|Hnil]; simpl in *.
    + rewrite Hids, Hcount, allocated_ids, allocated_none_busy, Hnil, Hmax, Hnext.
      split_and!; try done.
      rewrite length_app. simpl. lia.
    + rewrite Hids, Hcount. split_and!; try done.
      rewrite length_app. lia.
Qed.

(** X6: in one call [RunNextJob] gives a worker at most one job.  When no
    two slots hold the same worker, the jobs handed to the pool go to
    pairwise different workers, each of which was idle (or newly created)
    before the call and is marked busy after it. *)
Theorem RunNextJob_one_job_per_worker fuel s s' :
  RunNextJob fuel s = Done s' →
  NoDup (map worker (workers_ s)) →
  ∃ jobs,
    pool_ s' = pool_ s ++ jobs
    ∧ NoDup (map job_worker jobs)
    ∧ ∀ j, j ∈ jobs →
        mkWorker (job_worker j) true ∈ workers_ s'
        ∧ (workers_ s = [] ∨ mkWorker (job_worker j) false ∈ workers_ s).
Proof.
  intros Hrun Hnodup.
  destruct (RunNextJob_shape _ _ _ Hrun)
    as [[Hearly ->]|(Hearly & s1 & ws & queue & jobs & Hout & Hd & ->)].
  - exists []. rewrite app_nil_r. split_and!; [done|apply NoDup_nil_2|].
    intros j Hj. by apply elem_of_nil in Hj.
  - exists jobs. simpl.
    apply dispatch_loop_workers in Hd as (_ & _ & _ & Hjobs & Hsub).
    split_and!; [done| |].
    + eapply sublist_NoDup; [|exact Hsub].
      destruct (bool_decide (workers_ s = [])); [|done].
      simpl. rewrite allocated_ids. apply allocated_ids_NoDup.
    + intros j Hj. destruct (Hjobs j Hj) as [Hidle Hbusy]. split; [done|].
      destruct (bool_decide_reflect (workers_ s = [])); [by left|by right].
Qed.

Lemma set_idle_ids sender ws : map worker (set_idle sender ws) = map worker ws.
Proof.
  induction ws as [|d ws IH]; [done|]. simpl.
  case_bool_decide; simpl; [done|by rewrite IH].
Qed.

Lemma set_idle_other sender ws i d :
  ws !! i = Some d → worker d ≠ sender → set_idle sender ws !! i = Some d.
Proof.
  revert i. induction ws as [|d' ws IH]; intros i; [done|]. simpl.
  destruct i as [|i]; simpl.
  - intros [= ->] Hne. by rewrite bool_decide_eq_false_2.
  - intros Hi Hne. case_bool_decide; simpl; [done|by apply IH].
Qed.

Lemma set_idle_unknown sender ws :
  sender ∉ map worker ws → set_idle sender ws = ws.
Proof.
  induction ws as [|d ws IH]; [done|]. simpl. intros Hnot.
  rewrite bool_decide_eq_false_2 by (intros Heq; apply Hnot; rewrite Heq; left).
  rewrite IH; [done|]. intros Hin. apply Hnot. by right.
Qed.

Lemma set_idle_sender sender ws :
  sender ∈ map worker ws → mkWorker sender false ∈ set_idle sender ws.
Proof.
  induction ws as [|d ws IH]; simpl; [by intros ?%elem_of_nil|].
  intros [Heq|Hin]%elem_of_cons.
  - rewrite bool_decide_eq_true_2 by done. rewrite <- Heq. by left.
  - case_bool_decide as Hd; [rewrite Hd; by left|]. right. by apply IH.
Qed.

(** X7: [WorkerFinished] with no viewer attached only marks the sender's
    slot idle: the slots of the other workers, the render queue and the
    pool are as before and no job is started, whatever waits in the queue.
    A sender that owns no slot changes nothing at all. *)
Theorem WorkerFinished_detached fuel sender s :
  viewer_node_ s = None →
  ∃ s', WorkerFinished fuel sender s = Done s'
    ∧ render_queue_ s' = render_queue_ s
    ∧ pool_ s' = pool_ s
    ∧ map worker (workers_ s') = map worker (workers_ s)
    ∧ (∀ i d, workers_ s !! i = Some d → worker d ≠ sender →
              workers_ s' !! i = Some d)
    ∧ (sender ∈ map worker (workers_ s) → mkWorker sender false ∈ workers_ s')
    ∧ (sender ∉ map worker (workers_ s) → s' = s).
Proof.
  intros Hv. unfold WorkerFinished. simpl. rewrite Hv.
  eexists. split; [reflexivity|]. simpl. split_and!; try done.
  - apply set_idle_ids.
  - intros i d. apply set_idle_other.
  - apply set_idle_sender.
  - intros Hnot. rewrite set_idle_unknown by done. by destruct s.
Qed.

End WorkerTheorems.

(** ** Copying *)

Section CopyTheorems.
Context {World : Type} `{NodeGraph World}.
Implicit Types (s : RenderBackend World).

Lemma CopyNodeMakeConnection_with_grows rec src_input dst_input s s' :
  (∀ n s1 s2 d, rec n s1 = Done (s2, d) →
     copy_map_ s1 ⊆ copy_map_ s2 ∧ deleted_later s2 = deleted_later s1) →
  CopyNodeMakeConnection_with rec src_input dst_input s = Done s' →
  copy_map_ s ⊆ copy_map_ s' ∧ deleted_later s' = deleted_later s.
Proof.
  intros Hrec. unfold CopyNodeMakeConnection_with.
  destruct (connected_output (graph s) src_input) as [out|].
  - destruct (rec (out_parentNode out) s) as [f|[s1 d]] eqn:Hr; [done|].
    simpl. destruct (connected_output (graph s1) src_input); [|done].
    intros [= <-]. simpl. by eapply Hrec.
  - by intros [= <-].
Qed.

Lemma copy_connections_loop_grows rec srcs dsts s s' :
  (∀ n s1 s2 d, rec n s1 = Done (s2, d) →
     copy_map_ s1 ⊆ copy_map_ s2 ∧ deleted_later s2 = deleted_later s1) →
  copy_connections_loop rec srcs dsts s = Done s' →
  copy_map_ s ⊆ copy_map_ s' ∧ deleted_later s' = deleted_later s.
Proof.
  intros Hrec. revert dsts s.
  induction srcs as [|src srcs IH]; intros dsts s; simpl.
  - by intros [= <-].
  - destruct dsts as [|dst dsts]; [done|].
    destruct (CopyNodeMakeConnection_with rec src dst s) as [f|s1] eqn:Hc;
      [done|].
    simpl. intros Hl.
    apply CopyNodeMakeConnection_with_grows in Hc as [Hm1 Hd1]; [|done].
    apply IH in Hl as [Hm2 Hd2]. split; [by etrans|congruence].
Qed.

Lemma copy_connections_loop_short rec srcs dsts s s' :
  copy_connections_loop rec srcs dsts s = Done s' →
  length srcs ≤ length dsts.
Proof.
  revert dsts s. induction srcs as [|src srcs IH]; intros dsts s; simpl.
  - lia.
  - destruct dsts as [|dst dsts]; [done|].
    destruct (CopyNodeMakeConnection_with rec src dst s) as [f|s1]; [done|].
    simpl. intros Hl. apply IH in Hl. lia.
Qed.

(** X8: [CopyNodeConnections] returns the copy that [copy_map_] holds for
    the node afterwards.  A node that already has a copy is not copied
    again; the map only gains entries, nothing is handed to [deleteLater],
    and nothing outside the graph and the map changes.  A call that returns
    has found, for every input of the node, an input of the copy at the
    same index. *)
Theorem CopyNodeConnections_maps fuel src_node s s' dst_node :
  CopyNodeConnections fuel src_node s = Done (s', dst_node) →
  copy_map_ s' !! src_node = Some dst_node
  ∧ (∀ d, copy_map_ s !! src_node = Some d → dst_node = d)
  ∧ copy_map_ s ⊆ copy_map_ s'
  ∧ deleted_later s' = deleted_later s
  ∧ copy_frame s s'
  ∧ (∀ d, copy_map_ s !! src_node = Some d →
       length (GetInputsIncludingArrays
                 (CopyInputs (graph s) src_node d) src_node)
       ≤ length (GetInputsIncludingArrays
                   (CopyInputs (graph s) src_node d) d)).
Proof.
  intros Hcopy.
  assert (Hgrow : ∀ fuel' n s1 s2 d,
            CopyNodeConnections fuel' n s1 = Done (s2, d) →
            copy_map_ s2 !! n = Some d
            ∧ copy_map_ s1 ⊆ copy_map_ s2
            ∧ deleted_later s2 = deleted_later s1).
  { clear. induction fuel' as [|fuel' IH]; intros n s1 s2 d; simpl; [done|].
    assert (Hrec : ∀ n0 s3 s4 d0,
              CopyNodeConnections fuel' n0 s3 = Done (s4, d0) →
              copy_map_ s3 ⊆ copy_map_ s4
              ∧ deleted_later s4 = deleted_later s3).
    { intros n0 s3 s4 d0 Hc. by apply IH in Hc as (_ & ? & ?). }
    destruct (copy_map_ s1 !! n) as [dst|] eqn:Hn.
    - destruct (copy_connections_loop _ _ _ _) as [f|s3] eqn:Hl; [done|].
      simpl. intros [= <- <-].
      apply copy_connections_loop_grows in Hl as [Hm Hd]; [|done].
      simpl in *. split_and!; [|done..]. by eapply lookup_weaken.
    - destruct (copy (graph s1) n) as [w dst].
      destruct (copy_connections_loop _ _ _ _) as [f|s3] eqn:Hl; [done|].
      simpl. intros [= <- <-].
      apply copy_connections_loop_grows in Hl as [Hm Hd]; [|done].
      simpl in *. split_and!; [| |done].
      + eapply lookup_weaken; [|exact Hm]. apply lookup_insert_eq.
      + etrans; [|exact Hm]. by apply insert_subseteq. }
  pose proof (Hgrow _ _ _ _ _ Hcopy) as (Hd & Hm & Hdel).
  split_and!; try done.
  - intros d Hsrc. eapply lookup_weaken in Hsrc; [|exact Hm]. congruence.
  - by eapply CopyNodeConnections_frame.
  - intros d Hsrc. destruct fuel as [|fuel]; simpl in Hcopy; [done|].
    rewrite Hsrc in Hcopy.
    destruct (copy_connections_loop _ _ _ _) as [f|s3] eqn:Hl; [done|].
    by apply copy_connections_loop_short in Hl.
Qed.

Lemma copy_map_key_None (m : gmap Node Node) i :
  (∀ k, m !! k ≠ Some i) → copy_map_key m i = None.
Proof.
  intros Hno. destruct (copy_map_key m i) as [k|] eqn:Hk; [|done].
  apply copy_map_key_lookup in Hk. by destruct (Hno k).
Qed.

(** X9: the loop that drops the old dependencies of a reconnected input.
    When it returns it has handed the dependencies to [deleteLater] in
    order and has taken exactly one entry out of [copy_map_] for each of
    them.  It crashes, on a null pointer, as soon as a dependency is not
    the copy of any node, and in no other way. *)
Theorem remove_old_deps_outcome old_deps s :
  ((∃ i, i ∈ old_deps ∧ ∀ k, copy_map_ s !! k ≠ Some i) →
     remove_old_deps old_deps s = Abort NullDeref)
  ∧ match remove_old_deps old_deps s with
    | inl f => f = NullDeref
    | inr s' =>
        deleted_later s' = deleted_later s ++ old_deps
        ∧ copy_map_ s' ⊆ copy_map_ s
        ∧ size (copy_map_ s') + length old_deps = size (copy_map_ s)
        ∧ graph s' = graph s
    end.
Proof.
  revert s. induction old_deps as [|i rest IH]; intros s; simpl.
  - split; [by intros (i & ?%elem_of_nil & _)|].
    rewrite app_nil_r. split_and!; [done..|lia|done].
  - destruct (copy_map_key (copy_map_ s) i) as [k|] eqn:Hk.
    + apply copy_map_key_lookup in Hk as Hlook.
      set (s1 := set_deleted_later (deleted_later s ++ [i])
                   (set_copy_map (delete k (copy_map_ s)) s)).
      destruct (IH s1) as [IHfail IHok]. split.
      * intros (j & Hj & Hno). apply IHfail.
        apply elem_of_cons in Hj as [->|Hj]; [by destruct (Hno k)|].
        exists j. split; [done|]. simpl. intros k'.
        rewrite lookup_delete_Some. intros [_ ?]. by destruct (Hno k').
      * destruct (remove_old_deps rest s1) as [f|s']; [done|].
        destruct IHok as (Hd & Hm & Hsize & Hg). simpl in *.
        split_and!.
        -- by rewrite Hd, <- app_assoc.
        -- etrans; [exact Hm|]. apply delete_subseteq.
        -- pose proof (map_size_delete k (copy_map_ s)) as Hdel.
           rewrite Hlook in Hdel.
           assert (size (copy_map_ s) ≠ 0).
           { intros Hz. apply map_size_empty_inv in Hz.
             rewrite Hz, lookup_empty in Hlook. done. }
           lia.
        -- done.
    + split; done.
Qed.

Lemma ProcessUpdateQueue_loop_kept fuel queue s s' :
  ProcessUpdateQueue_loop fuel queue s = Done s' → kept_or_deleted s s'.
Proof.
  revert s. induction queue as [|i rest IH]; intros s; simpl.
  - intros [= <-]. split; [done|]. intros n c Hn. by left.
  - destruct (CopyNodeInputValue fuel i _) as [e|s1] eqn:Hc; [done|].
    simpl. intros Hl. apply IH in Hl.
    apply CopyNodeInputValue_kept in Hc.
    eapply kept_or_deleted_trans; [|exact Hl].
    eapply kept_or_deleted_trans; [|exact Hc].
    split; [done|]. intros n c Hn. by left.
Qed.

(** X10: a flush that returns has emptied the pending-update queue; it has
    changed nothing but the graph, [copy_map_] and the [deleteLater] log
    (no ticket, queue entry or worker slot), and every copy it took out of
    [copy_map_] it handed to [deleteLater].  With nothing pending it does
    nothing, whatever the fuel. *)
Theorem ProcessUpdateQueue_effect fuel s s' :
  ProcessUpdateQueue fuel s = Done s' →
  graph_update_queue_ s' = []
  ∧ outside_copy s' = outside_copy s
  ∧ kept_or_deleted s s'
  ∧ (graph_update_queue_ s = [] → s' = s).
Proof.
  intros Hflush.
  destruct (ProcessUpdateQueue_drains _ _ _ Hflush) as [Hq Hout].
  split_and!; [done..| |].
  - by eapply ProcessUpdateQueue_loop_kept.
  - intros Hnil. unfold ProcessUpdateQueue in Hflush. rewrite Hnil in Hflush.
    simpl in Hflush. injection Hflush as <-.
    rewrite <- Hnil. by rewrite set_graph_update_queue_id.
Qed.

End CopyTheorems.

(** ** Attaching and detaching the viewer *)

Section ViewerTheorems.
Context {World : Type} `{NodeGraph World}.
Implicit Types (s : RenderBackend World).

Lemma NodeGraphChanged_queue_only source s s' :
  NodeGraphChanged source s = Done s' →
  ∃ queue, s' = set_graph_update_queue queue s.
Proof.
  unfold NodeGraphChanged.
  destruct (copy_map_ s !! parentNode source).
  - destruct (NodeGraphChanged_loop _ _ _) as [queue [|]]; intros [= <-]; eauto.
  - case_bool_decide; [done|]. intros [= <-].
    exists (graph_update_queue_ s). by rewrite set_graph_update_queue_id.
Qed.

Lemma attach_outcome fuel viewer s s' :
  attach fuel viewer s = Done s' →
  graph_update_queue_ s' = []
  ∧ (∃ c, copied_viewer_node_ s' = Some c
          ∧ (copy_map_ s' !! viewer = Some c ∨ c ∈ deleted_later s'))
  ∧ graph_changed_from s'
    = (if update_with_graph_ s then graph_changed_from s ++ [viewer]
       else graph_changed_from s)
  ∧ render_queue_ s' = render_queue_ s
  ∧ ticket_heap s' = ticket_heap s
  ∧ viewer_node_ s' = viewer_node_ s
  ∧ workers_ s' = workers_ s
  ∧ pool_ s' = pool_ s.
Proof.
  unfold attach. destruct (copy (graph s) viewer) as [w c].
  set (s1 := set_copy_map _ _).
  destruct (NodeGraphChanged (texture_input viewer) s1) as [e|s2] eqn:H2;
    [done|].
  simpl. destruct (NodeGraphChanged (samples_input viewer) s2) as [e|s3] eqn:H3;
    [done|].
  simpl. destruct (ProcessUpdateQueue fuel s3) as [e|s4] eqn:H4; [done|].
  simpl.
  apply NodeGraphChanged_queue_only in H2 as [q2 ->].
  apply NodeGraphChanged_queue_only in H3 as [q3 ->].
  destruct (ProcessUpdateQueue_drains _ _ _ H4) as [Hq Hout].
  apply ProcessUpdateQueue_loop_kept in H4 as [_ Hkept].
  unfold outside_copy in Hout. simpl in Hout.
  injection Hout as Hheap Hv Hupd _ _ Hqueue Hroot Hworkers Hpool _ Hfrom _ _.
  assert (Hc : copy_map_ s4 !! viewer = Some c ∨ c ∈ deleted_later s4).
  { apply Hkept. simpl. apply lookup_insert_eq. }
  rewrite Hupd.
  destruct (update_with_graph_ s); intros [= <-]; simpl;
    rewrite ?Hfrom; split_and!; eauto.
Qed.

(** X11: [SetViewerNode] with a viewer that is not the current one, when it
    returns: the new viewer is set and has a copy, which [copy_map_] holds
    for it unless the flush deleted it again; nothing is pending; the
    backend listens to the new viewer exactly when update tracking is on,
    and no longer to the old one.  If a viewer was attached before, the
    render queue is empty; if none was, the queue and the tickets are
    untouched. *)
Theorem SetViewerNode_attach fuel viewer s s' :
  viewer_node_ s ≠ Some viewer →
  SetViewerNode fuel (Some viewer) s = Done s' →
  viewer_node_ s' = Some viewer
  ∧ graph_update_queue_ s' = []
  ∧ (∃ c, copied_viewer_node_ s' = Some c
          ∧ (copy_map_ s' !! viewer = Some c ∨ c ∈ deleted_later s'))
  ∧ (viewer ∈ graph_changed_from s' ↔
       update_with_graph_ s = true ∨ viewer ∈ graph_changed_from s)
  ∧ match viewer_node_ s with
    | Some old => render_queue_ s' = [] ∧ old ∉ graph_changed_from s'
    | None => render_queue_ s' = render_queue_ s
              ∧ ticket_heap s' = ticket_heap s
    end.
Proof.
  intros Hne. unfold SetViewerNode.
  rewrite bool_decide_eq_false_2 by done.
  destruct (viewer_node_ s) as [old|] eqn:Hold; simpl.
  - intros Ha. apply attach_outcome in Ha
      as (Hq & Hc & Hfrom & Hqueue & _ & Hv & _ & _). simpl in *.
    assert (Hold_ne : old ≠ viewer) by congruence.
    split_and!; try done.
    + rewrite Hfrom. destruct (update_with_graph_ s).
      * rewrite elem_of_app, list_elem_of_filter, list_elem_of_singleton.
        split; intros _; [by left|by right].
      * rewrite list_elem_of_filter. split.
        -- intros [_ Hin]. by right.
        -- intros [Hf|Hin]; [done|]. split; [congruence|done].
    + rewrite Hfrom. destruct (update_with_graph_ s).
      * rewrite elem_of_app, list_elem_of_filter, list_elem_of_singleton.
        intros [[Hn _]|Heq]; [by apply Hn|by apply Hold_ne].
      * rewrite list_elem_of_filter. intros [Hn _]. by apply Hn.
  - intros Ha. apply attach_outcome in Ha
      as (Hq & Hc & Hfrom & Hqueue & Hheap & Hv & _ & _). simpl in *.
    split_and!; try done.
    rewrite Hfrom. destruct (update_with_graph_ s).
    + rewrite elem_of_app, list_elem_of_singleton.
      split; intros _; [by left|by right].
    + split; [intros Hin; by right|]. by intros [Hf|Hin].
Qed.

Lemma Close_closed fuel s :
  viewer_node_ s = None →
  Close fuel (set_workers [] s) = Done (set_workers [] s).
Proof.
  intros Hv. destruct s. simpl in Hv. subst. reflexivity.
Qed.

Lemma SetViewerNode_None fuel s :
  SetViewerNode fuel None s =
    Done (match viewer_node_ s with
          | Some old => detach old (set_viewer_node None s)
          | None => s
          end).
Proof.
  destruct s as [? ? v ? ? ? ? ? ? ? ? ? ? ? ? ? ?].
  unfold SetViewerNode. simpl. by destruct v.
Qed.

(** X12: [Close] cannot fail.  It leaves no viewer and no worker slot; if a
    viewer was attached it also leaves the render queue, the pool, the copy
    map and the pending-update queue empty, and if none was attached it
    only drops the worker slots.  Closing a closed backend changes
    nothing. *)
Theorem Close_outcome fuel s :
  ∃ s', Close fuel s = Done s'
    ∧ viewer_node_ s' = None
    ∧ workers_ s' = []
    ∧ match viewer_node_ s with
      | Some _ => render_queue_ s' = [] ∧ pool_ s' = [] ∧ copy_map_ s' = ∅
                  ∧ copied_viewer_node_ s' = None ∧ graph_update_queue_ s' = []
      | None => s' = set_workers [] s
      end
    ∧ ∀ fuel', Close fuel' s' = Done s'.
Proof.
  destruct (viewer_node_ s) as [old|] eqn:Hold.
  - exists (set_workers [] (detach old (set_viewer_node None s))).
    split.
    { unfold Close. rewrite (SetViewerNode_None fuel s), Hold. done. }
    split; [done|]. split; [done|]. split; [by split_and!|].
    intros fuel'. by apply Close_closed.
  - exists (set_workers [] s).
    split.
    { unfold Close. rewrite (SetViewerNode_None fuel s), Hold. done. }
    split; [done|]. split; [done|]. split; [done|].
    intros fuel'. by apply Close_closed.
Qed.

End ViewerTheorems.

(** ** Invariants of runs *)

Section RunTheorems.
Context {World : Type} `{NodeGraph World}.
Implicit Types (s : RenderBackend World).

Lemma dispatch_loop_returns heap root ws queue :
  (∀ t, t ∈ queue → is_Some (heap !! t)) →
  queue ≠ [] →
  ∃ r, dispatch_loop heap root ws queue = Done r.
Proof.
  revert queue. induction ws as [|d ws IH]; intros queue Hheap Hne; simpl.
  - eauto.
  - destruct (busy d).
    + destruct (IH queue Hheap Hne) as [[[ws1 q1] js] ->]. simpl. eauto.
    + destruct queue as [|ticket queue]; [done|].
      destruct (Hheap ticket) as [t ->]; [by left|].
      case_bool_decide as Hnil; [by eauto|].
      destruct (IH queue) as [[[ws1 q1] js] ->]; [|done|simpl; by eauto].
      intros t' Ht'. apply Hheap. by right.
Qed.

Lemma well_tracked_same s s' :
  pool_ s' = pool_ s → render_queue_ s' = render_queue_ s →
  ticket_heap s' = ticket_heap s → workers_ s' = workers_ s →
  well_tracked s → well_tracked s'.
Proof.
  unfold well_tracked, tracked_tickets. intros -> -> -> ->. done.
Qed.

Lemma well_tracked_empty s :
  pool_ s = [] → render_queue_ s = [] →
  NoDup (map worker (workers_ s)) → well_tracked s.
Proof.
  unfold well_tracked, tracked_tickets. intros -> -> Hw. simpl.
  split_and!; [apply NoDup_nil_2| |done].
  intros t Ht. by apply elem_of_nil in Ht.
Qed.

Lemma submit_well_tracked type time s :
  well_tracked s → well_tracked (snd (submit type time s)).
Proof.
  unfold submit. destruct (viewer_node_ s); [|done].
  unfold well_tracked, tracked_tickets. simpl.
  intros (Hnd & Hheap & Hw).
  set (t := fresh (dom (ticket_heap s))).
  assert (Hfresh : ticket_heap s !! t = None)
    by apply not_elem_of_dom, is_fresh.
  split_and!; [| |done].
  - rewrite app_assoc. apply NoDup_app. split_and!; [done| |apply NoDup_singleton].
    intros t' Ht' ->%list_elem_of_singleton.
    destruct (Hheap _ Ht') as [tk Htk]. congruence.
  - intros t'. rewrite app_assoc, elem_of_app, list_elem_of_singleton.
    intros [Ht'| ->]; [|by rewrite lookup_insert_eq].
    rewrite lookup_insert_ne; [by apply Hheap|].
    intros <-. destruct (Hheap _ Ht') as [tk Htk]. congruence.
Qed.

Lemma RunNextJob_well_tracked fuel s s' :
  RunNextJob fuel s = Done s' → well_tracked s → well_tracked s'.
Proof.
  intros Hrun (Hnd & Hheap & Hw).
  destruct (RunNextJob_shape _ _ _ Hrun)
    as [[_ ->]|(_ & s1 & ws & queue & jobs & Hout & Hd & ->)]; [done|].
  unfold outside_copy in Hout.
  injection Hout as Hh _ _ _ _ _ _ Hworkers _ _ _ _ _.
  pose proof (dispatch_loop_fifo _ _ _ _ _ _ _ Hd) as (Hq & _ & _).
  pose proof (dispatch_loop_workers _ _ _ _ _ _ _ Hd) as (Hids & _).
  unfold well_tracked, tracked_tickets in *.
  assert (Htracked : map job_ticket (pool_ s ++ jobs) ++ queue
                     = map job_ticket (pool_ s) ++ render_queue_ s).
  { by rewrite map_app, <- app_assoc, Hq. }
  assert (Hheap' : ticket_heap
                     (if bool_decide (workers_ s = [])
                      then allocate_workers s1 else s1) = ticket_heap s).
  { by destruct (bool_decide (workers_ s = [])). }
  simpl. rewrite Htracked, Hheap', Hids. split_and!; [done..|].
  destruct (bool_decide (workers_ s = [])); [|done].
  simpl. rewrite allocated_ids. apply allocated_ids_NoDup.
Qed.

Lemma SetViewerNode_well_tracked fuel v s s' :
  SetViewerNode fuel v s = Done s' → well_tracked s → well_tracked s'.
Proof.
  unfold SetViewerNode. case_bool_decide; [by intros [= <-]|].
  intros Hset (Hnd & Hheap & Hw).
  destruct v as [viewer|], (viewer_node_ s) as [old|]; simpl in Hset.
  - apply attach_outcome in Hset as (_ & _ & _ & Hq & Hh & _ & Hws & Hp).
    apply well_tracked_empty; simpl in *; congruence.
  - apply attach_outcome in Hset as (_ & _ & _ & Hq & Hh & _ & Hws & Hp).
    eapply well_tracked_same; [exact Hp|exact Hq|exact Hh|exact Hws|].
    done.
  - injection Hset as <-. by apply well_tracked_empty.
  - by injection Hset as <-.
Qed.

Lemma exec_well_tracked fuel c s s' :
  exec fuel c s = Done s' → well_tracked s → well_tracked s'.
Proof.
  destruct c; simpl.
  - apply SetViewerNode_well_tracked.
  - intros [= <-] (Hnd & Hheap & Hw).
    unfold well_tracked, tracked_tickets in *. simpl.
    rewrite app_nil_r. apply NoDup_app in Hnd as (Hnd & _ & _).
    split_and!; [done| |done].
    intros t Ht. rewrite cancel_all_lookup.
    destruct (Hheap t) as [tk Htk]; [apply elem_of_app; by left|].
    rewrite Htk. by case_bool_decide.
  - intros [= <-]. apply submit_well_tracked.
  - intros [= <-]. apply submit_well_tracked.
  - intros [= <-]. apply submit_well_tracked.
  - by intros [= <-].
  - by intros [= <-].
  - intros Hc. apply NodeGraphChanged_queue_only in Hc as [queue ->]. done.
  - apply RunNextJob_well_tracked.
  - unfold WorkerFinished. simpl. intros Hr (Hnd & Hheap & Hw).
    assert (well_tracked (set_workers (set_idle sender (workers_ s)) s)).
    { unfold well_tracked, tracked_tickets in *. simpl.
      by rewrite set_idle_ids. }
    destruct (viewer_node_ s).
    + by eapply RunNextJob_well_tracked.
    + by injection Hr as <-.
  - intros [= <-] (Hnd & Hheap & Hw).
    unfold well_tracked, tracked_tickets in *. simpl.
    split_and!; [done| |done].
    intros t Ht. destruct (Hheap t Ht) as [tk Htk].
    destruct (decide (ticket = t)) as [->|Hne].
    + rewrite lookup_alter_eq, Htk. by eauto.
    + rewrite lookup_alter_ne by done. by eauto.
  - by intros [= <-].
Qed.

Lemma run_well_tracked fuel calls s s' :
  run fuel calls s = Done s' → well_tracked s → well_tracked s'.
Proof.
  revert s. induction calls as [|c rest IH]; intros s; simpl.
  - by intros [= <-].
  - destruct (exec fuel c s) as [e|s1] eqn:Hc; [done|]. simpl.
    intros Hr Hinv. apply (IH s1 Hr). by eapply exec_well_tracked.
Qed.

(** X13: in every state the backend reaches, no ticket is queued twice, is
    both queued and handed to the pool, or was handed to the pool twice
    since the viewer was attached: dispatching moves a ticket from the queue
    to the pool and nothing puts it back.  Every such ticket is a live
    object, and no worker sits in two slots. *)
Theorem reachable_well_tracked s :
  reachable s →
  NoDup (map job_ticket (pool_ s) ++ render_queue_ s)
  ∧ (∀ t, t ∈ map job_ticket (pool_ s) ++ render_queue_ s →
          is_Some (ticket_heap s !! t))
  ∧ NoDup (map worker (workers_ s)).
Proof.
  intros (w & update & threads & fuel & calls & Hrun).
  eapply run_well_tracked; [exact Hrun|].
  apply well_tracked_empty; [done..|apply NoDup_nil_2].
Qed.

(** X14: in a state the backend reaches, [RunNextJob] cannot crash in its
    dispatch loop: when no graph update has to be flushed first (update
    tracking is off, or nothing is pending) the call returns, whatever the
    fuel. *)
Theorem RunNextJob_returns_without_flush fuel s :
  reachable s →
  update_with_graph_ s && negb (bool_decide (graph_update_queue_ s = [])) = false →
  ∃ s', RunNextJob fuel s = Done s'.
Proof.
  intros (w & update & threads & fuel0 & calls & Hrun) Hpending.
  assert (Hinv : well_tracked s).
  { eapply run_well_tracked; [exact Hrun|].
    apply well_tracked_empty; [done..|apply NoDup_nil_2]. }
  destruct Hinv as (_ & Hheap & _). unfold tracked_tickets in Hheap.
  unfold RunNextJob. rewrite Hpending. simpl.
  destruct (bool_decide_reflect (render_queue_ s = [])) as [Hnil|Hnil];
    [by eauto|].
  destruct (negb (video_params_valid s) || negb (audio_params_valid s));
    [by eauto|].
  simpl.
  destruct (dispatch_loop_returns
              (ticket_heap (if bool_decide (workers_ s = [])
                            then allocate_workers s else s))
              (copied_viewer_node_ (if bool_decide (workers_ s = [])
                                    then allocate_workers s else s))
              (workers_ (if bool_decide (workers_ s = [])
                         then allocate_workers s else s))
              (render_queue_ (if bool_decide (workers_ s = [])
                              then allocate_workers s else s)))
    as [[[ws queue] jobs] Hd].
  - intros t Ht.
    assert (t ∈ render_queue_ s ∧ ticket_heap
              (if bool_decide (workers_ s = [])
               then allocate_workers s else s) = ticket_heap s) as [Ht' ->].
    { by destruct (bool_decide (workers_ s = [])). }
    apply Hheap, elem_of_app. by right.
  - by destruct (bool_decide (workers_ s = [])).
  - rewrite Hd. simpl. eauto.
Qed.

End RunTheorems.

(** ** The number of chunks *)

Section ChunkCount.
Local Open Scope Q_scope.

Lemma SplitRange_loop_length (c : Z) (r : TimeRange) (b : Z) :
  (0 < c)%Z →
  (b * c < 2 ^ 31)%Z →
  ∀ fuel (a : Z),
    (Z.to_nat (b * c - a * c) <= fuel)%nat →
    (0 <= a * c)%Z →
    ∃ chunks, SplitRange_loop fuel c r (b * c) (a * c) = Some chunks
              ∧ length chunks = Z.to_nat (b - a).
Proof.
  intros Hc Hmax. induction fuel as [|fuel IH]; intros a Hfuel Ha.
  - assert (b <= a)%Z by nia. simpl.
    rewrite (proj2 (Z.ltb_ge _ _)) by nia.
    exists []. split; [done|]. simpl. lia.
  - simpl. destruct (Z.ltb_spec (a * c) (b * c)) as [Hi|Hi].
    + assert (Hab : (a < b)%Z) by nia.
      assert (Hnext : (a * c + c = (a + 1) * c)%Z) by lia.
      rewrite int_of_small by nia. simpl. rewrite Hnext.
      destruct (IH (a + 1)%Z) as (rest & -> & Hlen); [nia|nia|].
      simpl. eexists. split; [reflexivity|]. simpl. rewrite Hlen. lia.
    + exists []. split; [done|]. simpl. nia.
Qed.

(** X15: for a chunk size of at least 1 and a range with [0 <= in <= out],
    when [out] rounded up to a multiple of the chunk size fits an [int] and
    the rounding of the double arithmetic changes neither the floor of
    [in / chunk_size] nor the ceiling of [out / chunk_size],
    [SplitRangeIntoChunks] makes one chunk for every multiple of the chunk
    size from the one at or below [in] up to the one at or above [out].  It
    makes no chunk at all exactly when the range is empty and lies on a
    multiple of the chunk size; an empty range anywhere else still yields one
    (empty) chunk. *)
Theorem SplitRangeIntoChunks_count (toDouble : Q → Q) (c : Z) (r : TimeRange) :
  (1 <= c)%Z →
  0 <= range_in r →
  range_in r <= range_out r →
  (Qceiling (range_out r / inject_Z c) * c < 2 ^ 31)%Z →
  Qfloor (double_div (toDouble (range_in r)) (inject_Z c))
    = Qfloor (range_in r / inject_Z c) →
  Qceiling (double_div (toDouble (range_out r)) (inject_Z c))
    = Qceiling (range_out r / inject_Z c) →
  ∃ chunks,
    SplitRangeIntoChunks_with toDouble c r = Some chunks
    ∧ length chunks
      = Z.to_nat (Qceiling (range_out r / inject_Z c)
                  - Qfloor (range_in r / inject_Z c))
    ∧ (chunks = [] ↔
         range_in r == range_out r
         ∧ ∃ k : Z, range_in r == inject_Z (k * c)).
Proof.
  intros Hc Hin Hle Hout Hfl Hce.
  destruct (SplitRangeIntoChunks_with_bounds toDouble c r Hc Hin Hle Hout Hfl Hce)
    as (-> & Ha0 & Hab).
  destruct (floor_chunk c (range_in r)) as [Hs_lo Hs_hi]; [lia|].
  destruct (ceiling_chunk c (range_out r)) as [He_lo He_hi]; [lia|].
  set (a := Qfloor (range_in r / inject_Z c)) in *.
  set (b := Qceiling (range_out r / inject_Z c)) in *.
  destruct (SplitRange_loop_length c r b ltac:(lia) ltac:(lia)
              (Z.to_nat (b * c - a * c)) a ltac:(lia) Ha0)
    as (chunks & Hsplit & Hlen).
  exists chunks. split_and!; [done..|].
  split.
  - intros ->. simpl in Hlen.
    assert (Hba : (b <= a)%Z) by lia.
    assert (inject_Z (b * c) <= inject_Z (a * c)).
    { rewrite <- Zle_Qle. nia. }
    split; [lra|]. exists a. lra.
  - intros (Heq & k & Hk).
    assert (Hak : (a * c <= k * c < a * c + c)%Z).
    { split; [rewrite Zle_Qle|rewrite Zlt_Qlt]; lra. }
    assert (Hbk : (b * c - c < k * c <= b * c)%Z).
    { split; [rewrite Zlt_Qlt|rewrite Zle_Qle]; lra. }
    assert (Ha : a = k) by nia. assert (Hb : b = k) by nia.
    rewrite Ha, Hb, Z.sub_diag in Hlen.
    by destruct chunks.
Qed.

Lemma SplitRangeIntoChunks_count_witness :
  ∃ chunks,
    SplitRangeIntoChunks_with round_binary64 2 (mkRange 3 3) = Some chunks
    ∧ length chunks
      = Z.to_nat (Qceiling (range_out (mkRange 3 3) / inject_Z 2)
                  - Qfloor (range_in (mkRange 3 3) / inject_Z 2))
    ∧ (chunks = [] ↔
         range_in (mkRange 3 3) == range_out (mkRange 3 3)
         ∧ ∃ k : Z, range_in (mkRange 3 3) == inject_Z (k * 2)).
Proof.
  apply (SplitRangeIntoChunks_count round_binary64 2 (mkRange 3 3)).
  - lia.
  - simpl. lra.
  - simpl. lra.
  - vm_compute. reflexivity.
  - vm_compute. reflexivity.
  - vm_compute. reflexivity.
Defined.

End ChunkCount.

(** ** The further properties on concrete graphs *)

Section FurtherExamples.
Import Concrete Examples.

Lemma NodeGraphChanged_twice_witness :
  NodeGraphChanged x x_pending = Done x_pending.
Proof.
  apply (NodeGraphChanged_twice x q_pending). vm_compute. reflexivity.
Defined.

Lemma submissions_distinct_witness :
  ∃ t1 t2,
    fst (submit kTypeVideo (TimePoint 1) chain_attached) = Some t1
    ∧ fst (submit kTypeHash (TimeList [1%Q])
             (snd (submit kTypeVideo (TimePoint 1) chain_attached))) = Some t2
    ∧ t1 ≠ t2
    ∧ render_queue_
        (snd (submit kTypeHash (TimeList [1%Q])
                (snd (submit kTypeVideo (TimePoint 1) chain_attached))))
      = render_queue_ chain_attached ++ [t1; t2]
    ∧ ∀ t tk, ticket_heap chain_attached !! t = Some tk →
        ticket_heap
          (snd (submit kTypeHash (TimeList [1%Q])
                  (snd (submit kTypeVideo (TimePoint 1) chain_attached)))) !! t
        = Some tk.
Proof.
  apply (submissions_distinct kTypeVideo (TimePoint 1) kTypeHash
           (TimeList [1%Q]) chain_attached viewer).
  vm_compute. reflexivity.
Defined.

Lemma RunNextJob_slots_witness :
  ticket_heap frame_running = ticket_heap frame_queued
  ∧ viewer_node_ frame_running = viewer_node_ frame_queued
  ∧ map worker (workers_ frame_running)
    = (if bool_decide (workers_ frame_queued = [])
          && negb (returns_early frame_queued)
       then map (λ i, next_worker frame_queued + i)
              (seq 0 (maxThreadCount frame_queued))
       else map worker (workers_ frame_queued))
  ∧ (∀ i d, workers_ frame_queued !! i = Some d → busy d = true →
            workers_ frame_running !! i = Some d)
  ∧ length (filter (λ d, busy d = true) (workers_ frame_running))
    + length (pool_ frame_queued)
    = length (filter (λ d, busy d = true) (workers_ frame_queued))
      + length (pool_ frame_running).
Proof.
  apply (RunNextJob_slots 20 frame_queued frame_running).
  vm_compute. reflexivity.
Defined.

Lemma RunNextJob_one_job_per_worker_witness :
  ∃ jobs,
    pool_ frame_running = pool_ frame_queued ++ jobs
    ∧ NoDup (map job_worker jobs)
    ∧ ∀ j, j ∈ jobs →
        mkWorker (job_worker j) true ∈ workers_ frame_running
        ∧ (workers_ frame_queued = []
           ∨ mkWorker (job_worker j) false ∈ workers_ frame_queued).
Proof.
  apply (RunNextJob_one_job_per_worker 20 frame_queued frame_running).
  - vm_compute. reflexivity.
  - vm_compute. apply NoDup_nil_2.
Defined.

Lemma WorkerFinished_detached_witness :
  ∃ s', WorkerFinished 20 0 detached_busy = Done s'
    ∧ render_queue_ s' = render_queue_ detached_busy
    ∧ pool_ s' = pool_ detached_busy
    ∧ map worker (workers_ s') = map worker (workers_ detached_busy)
    ∧ (∀ i d, workers_ detached_busy !! i = Some d → worker d ≠ 0 →
              workers_ s' !! i = Some d)
    ∧ (0 ∈ map worker (workers_ detached_busy) → mkWorker 0 false ∈ workers_ s')
    ∧ (0 ∉ map worker (workers_ detached_busy) → s' = detached_busy).
Proof.
  apply (WorkerFinished_detached 20 0 detached_busy).
  vm_compute. reflexivity.
Defined.

Lemma CopyNodeConnections_maps_witness :
  copy_map_ (fst node1_copied) !! 1 = Some (snd node1_copied)
  ∧ (∀ d, copy_map_ (initial chain_graph true 2) !! 1 = Some d →
          snd node1_copied = d)
  ∧ copy_map_ (initial chain_graph true 2) ⊆ copy_map_ (fst node1_copied)
  ∧ deleted_later (fst node1_copied)
    = deleted_later (initial chain_graph true 2)
  ∧ copy_frame (initial chain_graph true 2) (fst node1_copied)
  ∧ (∀ d, copy_map_ (initial chain_graph true 2) !! 1 = Some d →
       length (GetInputsIncludingArrays
                 (CopyInputs (graph (initial chain_graph true 2)) 1 d) 1)
       ≤ length (GetInputsIncludingArrays
                   (CopyInputs (graph (initial chain_graph true 2)) 1 d) d)).
Proof.
  apply (CopyNodeConnections_maps 20 1 (initial chain_graph true 2)
           (fst node1_copied) (snd node1_copied)).
  vm_compute. reflexivity.
Defined.

Lemma ProcessUpdateQueue_effect_witness :
  graph_update_queue_ q_flushed = []
  ∧ outside_copy q_flushed = outside_copy q_pending
  ∧ kept_or_deleted q_pending q_flushed
  ∧ (graph_update_queue_ q_pending = [] → q_flushed = q_pending).
Proof.
  apply (ProcessUpdateQueue_effect 20 q_pending q_flushed).
  vm_compute. reflexivity.
Defined.

Lemma SetViewerNode_attach_witness :
  viewer_node_ chain_attached = Some viewer
  ∧ graph_update_queue_ chain_attached = []
  ∧ (∃ c, copied_viewer_node_ chain_attached = Some c
          ∧ (copy_map_ chain_attached !! viewer = Some c
             ∨ c ∈ deleted_later chain_attached))
  ∧ (viewer ∈ graph_changed_from chain_attached ↔
       update_with_graph_ (initial chain_graph true 2) = true
       ∨ viewer ∈ graph_changed_from (initial chain_graph true 2))
  ∧ match viewer_node_ (initial chain_graph true 2) with
    | Some old => render_queue_ chain_attached = []
                  ∧ old ∉ graph_changed_from chain_attached
    | None => render_queue_ chain_attached
              = render_queue_ (initial chain_graph true 2)
              ∧ ticket_heap chain_attached
                = ticket_heap (initial chain_graph true 2)
    end.
Proof.
  apply (SetViewerNode_attach 20 viewer (initial chain_graph true 2)
           chain_attached).
  - vm_compute. discriminate.
  - vm_compute. reflexivity.
Defined.

Lemma busy_pending_reachable : reachable busy_pending.
Proof.
  exists chain_graph, true, 2, 20, busy_pending_calls.
  vm_compute. reflexivity.
Defined.

Lemma reachable_well_tracked_witness :
  NoDup (map job_ticket (pool_ busy_pending) ++ render_queue_ busy_pending)
  ∧ (∀ t, t ∈ map job_ticket (pool_ busy_pending) ++ render_queue_ busy_pending →
          is_Some (ticket_heap busy_pending !! t))
  ∧ NoDup (map worker (workers_ busy_pending)).
Proof.
  apply (reachable_well_tracked busy_pending). apply busy_pending_reachable.
Defined.

(** One frame is queued, the parameters are valid and nothing is pending:
    the call enters the dispatch loop and hands the frame to a worker. *)
Lemma RunNextJob_returns_without_flush_witness :
  render_queue_ frame_queued = [0]
  ∧ returns_early frame_queued = false
  ∧ ∃ s', RunNextJob 0 frame_queued = Done s'.
Proof.
  split; [vm_compute; reflexivity|]. split; [vm_compute; reflexivity|].
  apply (RunNextJob_returns_without_flush 0 frame_queued).
  - exists chain_graph, true, 2, 20,
      [CallSetViewerNode (Some viewer);
       CallSetVideoParams true; CallSetAudioParams true; CallRenderFrame 1].
    vm_compute. reflexivity.
  - vm_compute. reflexivity.
Defined.

End FurtherExamples.
